(** * letta-cowork: the event router, the runtime session table and the
      message renderer.

    The development follows three source files:
    - [src/electron/types.ts]: the tagged unions exchanged with the windows;
    - [src/electron/libs/runtime-state.ts]: the in-memory session table;
    - [src/electron/ipc-handlers.ts]: [emit], [handleClientEvent] and
      [cleanupAllSessions];
    and the renderer: [MessageCard], what [ToolResultCard] and
    [ToolCallCard] compute, and the helpers [isMarkdown],
    [extractTagContent], [setToolStatus] and
    [getAskUserQuestionSignature].

    The router is asynchronous JavaScript running on one thread.  It is
    modelled as a labelled transition system over a [World]: every label is
    one uninterrupted turn of the event loop (a client event handled up to
    its [await], the settlement of the runner's promise, or a callback the
    runner makes).  Within a turn the code is written in a small state and
    exception monad [Js].

    The runner ([libs/runner]) is not among the sources.  What it does is
    left open: when its promise settles and with what, which callbacks it
    makes and when, what it registers in the map it was given, and what its
    closures [resolve] and [abort] do to the maps when the router calls
    them. *)

From Stdlib Require Import Ascii.
From stdpp Require Import base option list strings gmap fin_maps.

(* ===================================================================== *)
(** ** JavaScript values that the router only passes along *)
(* ===================================================================== *)

(** Values of type [unknown]: tool inputs and whatever a rejected promise
    carries.  [JsObject repr] is an object whose conversion to a string
    gives [repr]; [JsUnprintable thrown] is an object whose conversion to a
    string throws [thrown]: a [TypeError] for an object that has neither a
    usable [toString] nor a usable [valueOf], such as [Object.create(null)],
    and otherwise whatever its own [toString] throws. *)
Inductive JsValue :=
| JsUndefined
| JsNull
| JsBool (b : bool)
| JsString (s : string)
| JsError (name message : string)
| JsObject (repr : string)
| JsUnprintable (thrown : JsValue).

(** How an expression completes: with a value, or by throwing. *)
Inductive Completion (A : Type) :=
| Normal (a : A)
| Thrown (v : JsValue).
Arguments Normal {A} a.
Arguments Thrown {A} v.

(** The [TypeError] of a conversion that finds no primitive value. *)
Definition typeError : JsValue :=
  JsError "TypeError" "Cannot convert object to primitive value".

(** The object [Object.create(null)]. *)
Definition bareObject : JsValue := JsUnprintable typeError.

(** [String(v)].  An [Error] prints as [name: message], dropping the side
    that is empty; an object prints through its own [toString], which may
    throw. *)
Definition String_ (v : JsValue) : Completion string :=
  match v with
  | JsUndefined => Normal "undefined"
  | JsNull => Normal "null"
  | JsBool true => Normal "true"
  | JsBool false => Normal "false"
  | JsString s => Normal s
  | JsError name message =>
      Normal (if decide (name = "") then message
              else if decide (message = "") then name
              else name +:+ ": " +:+ message)
  | JsObject repr => Normal repr
  | JsUnprintable thrown => Thrown thrown
  end.

(** Truthiness of a string: only the empty string is falsy. *)
Definition truthy (s : string) : bool := negb (bool_decide (s = "")).

(** [o || d] for an optional string. *)
Definition or_string (o : option string) (d : string) : string :=
  match o with
  | Some s => if truthy s then s else d
  | None => d
  end.

(* ===================================================================== *)
(** ** types.ts *)
(* ===================================================================== *)

Inductive SessionStatus := Idle | Running | Completed | Error.

#[global] Instance SessionStatus_eq_dec : EqDecision SessionStatus.
Proof. solve_decision. Defined.

(** The SDK's [CanUseToolResponse]. *)
Inductive PermissionResult :=
| Allow (updatedInput : JsValue)
| Deny (message : string).

(** The SDK's message union as the renderer consumes it, with the local
    [user_prompt] variant of [StreamMessage]. *)
Inductive StreamMessage :=
| UserPromptMessage (prompt : string)
| SDKInit (conversationId model : option string)
| SDKAssistant (content : string)
| SDKReasoning (content : string)
| SDKToolCall (toolCallId : option string) (toolName : string) (toolInput : JsValue)
| SDKToolResult (toolCallId : option string) (content : string) (isError : bool)
| SDKResult (success : bool) (error : option string)
| SDKOther (type : string).

Record SessionInfo := {
  info_id : string;
  info_title : string;
  info_status : SessionStatus;
  info_lettaConversationId : option string;
  info_cwd : option string;
  info_createdAt : nat;
  info_updatedAt : nat;
}.

(** Server -> client events. *)
Inductive ServerEvent :=
| StreamMessageEv (sessionId : string) (message : StreamMessage)
| StreamUserPrompt (sessionId prompt : string)
| SessionStatusEv (sessionId : string) (status : SessionStatus)
    (title cwd error : option string)
| SessionListEv (sessions : list SessionInfo)
| SessionHistoryEv (sessionId : string) (status : SessionStatus)
    (messages : list StreamMessage)
| SessionDeletedEv (sessionId : string)
| PermissionRequestEv (sessionId toolUseId toolName : string) (input : JsValue)
| RunnerErrorEv (sessionId : option string) (message : string).

(** Client -> server events. *)
Inductive ClientEvent :=
| SessionStart (title prompt : string) (cwd allowedTools : option string)
| SessionContinue (sessionId prompt : string)
| SessionStop (sessionId : string)
| SessionDelete (sessionId : string)
| SessionList
| SessionHistory (sessionId : string)
| PermissionResponse (sessionId toolUseId : string) (result : PermissionResult).

(* ===================================================================== *)
(** ** runtime-state.ts: data *)
(* ===================================================================== *)

(** A [Map<string, PendingPermission>] is a mutable object that the table
    and the runner may both hold; it lives in a heap and is named by its
    address. *)
Definition loc := positive.

(** The [resolve] closure is the runner's; it is identified by a number and
    every call of it is recorded. *)
Record PendingPermission := {
  toolUseId : string;
  toolName : string;
  input : JsValue;
  resolve : nat;
}.

Record RuntimeSession := {
  conversationId : string;
  status : SessionStatus;
  pendingPermissions : loc;
}.

(** [Partial<RuntimeSession>] as the router uses it: only [status] is ever
    supplied. *)
Record SessionPatch := { patch_status : option SessionStatus }.

Definition assign (session : RuntimeSession) (updates : SessionPatch) : RuntimeSession :=
  {| conversationId := conversationId session;
     status := default (status session) (patch_status updates);
     pendingPermissions := pendingPermissions session |}.

(* ===================================================================== *)
(** ** The runner, seen from the router *)
(* ===================================================================== *)

Definition RunnerHandle := nat.

(** The [session] object literal handed to [runLetta]. *)
Record RunnerSession := {
  rs_id : string;
  rs_title : string;
  rs_status : SessionStatus;
  rs_cwd : option string;
  rs_pendingPermissions : loc;
}.

Record RunnerOptions := {
  opt_prompt : string;
  opt_session : RunnerSession;
  opt_resumeConversationId : option string;
}.

(** What the two callbacks and the code after the [await] close over.  For a
    start these are the [let] variables [conversationId] and [handle]; for a
    continue, the constant [conversationId]. *)
Inductive Closure :=
| StartClosure (prompt : string) (cwd : option string)
    (conversationId : option string) (handle : option RunnerHandle)
| ContinueClosure (conversationId : string).

(** One call of [runLetta] whose promise the handler awaits. *)
Record Run := {
  options : RunnerOptions;
  closure : Closure;
  settled : bool;
}.

(** The argument of [onSessionUpdate]. *)
Record SessionUpdates := { lettaConversationId : option string }.

Inductive RunnerOutcome :=
| Resolved (handle : RunnerHandle)
| Rejected (error : JsValue).

(** The router calls two closures that the runner built: the [resolve] of a
    pending entry and the [abort] of a handle.  Their code is the runner's;
    what reaches the router's state is what they do to the
    [pendingPermissions] maps, which the runner holds as well.  Either
    effect is a parameter: given the closure (and the result it is called
    with), what becomes of the map object at each address.  The callbacks
    [onEvent] and [onSessionUpdate] are not called from inside these two
    closures, the runner makes them in turns of their own; and both
    closures return normally. *)
Record Runner := {
  resolveEffect : nat → PermissionResult → loc →
                  gmap string PendingPermission → gmap string PendingPermission;
  abortEffect : RunnerHandle → loc →
                gmap string PendingPermission → gmap string PendingPermission;
}.

(** A runner whose two closures leave every map as it is. *)
Definition quietRunner : Runner :=
  {| resolveEffect := λ _ _ _ entries, entries;
     abortEffect := λ _ _ entries, entries |}.

(** A runner whose [resolve] closures remove the entry they belong to from
    every map that holds it, and whose [abort] empties the maps. *)
Definition tidyRunner : Runner :=
  {| resolveEffect := λ callback _ _ entries,
       filter (λ kv, resolve kv.2 ≠ callback) entries;
     abortEffect := λ _ _ _, ∅ |}.

(* ===================================================================== *)
(** ** The world *)
(* ===================================================================== *)

Record World := mkWorld {
  sessions : gmap string RuntimeSession;           (* runtime-state.ts: sessions *)
  heap : gmap loc (gmap string PendingPermission);  (* the Map objects *)
  runnerHandles : gmap string RunnerHandle;         (* ipc-handlers.ts *)
  runs : list Run;                                  (* calls of runLetta *)
  broadcasts : list ServerEvent;                    (* calls of broadcast, oldest first *)
  aborted : list RunnerHandle;                      (* calls of handle.abort() *)
  resolved : list (nat * PermissionResult);         (* calls of pending.resolve(result) *)
  console : list JsValue;                           (* console.error *)
  uncaught : list JsValue;                          (* rejections of handleClientEvent *)
  runner : Runner;                                  (* the closures of the runner *)
}.

(** The world when the process starts, for a given runner. *)
Definition boot (rn : Runner) : World :=
  mkWorld ∅ ∅ ∅ [] [] [] [] [] [] rn.

Definition initial : World := boot quietRunner.

Definition with_sessions (f : gmap string RuntimeSession → gmap string RuntimeSession) (w : World) : World :=
  mkWorld (f (sessions w)) (heap w) (runnerHandles w) (runs w) (broadcasts w)
          (aborted w) (resolved w) (console w) (uncaught w) (runner w).
Definition with_heap (f : gmap loc (gmap string PendingPermission) → gmap loc (gmap string PendingPermission)) (w : World) : World :=
  mkWorld (sessions w) (f (heap w)) (runnerHandles w) (runs w) (broadcasts w)
          (aborted w) (resolved w) (console w) (uncaught w) (runner w).
Definition with_runnerHandles (f : gmap string RunnerHandle → gmap string RunnerHandle) (w : World) : World :=
  mkWorld (sessions w) (heap w) (f (runnerHandles w)) (runs w) (broadcasts w)
          (aborted w) (resolved w) (console w) (uncaught w) (runner w).
Definition with_runs (f : list Run → list Run) (w : World) : World :=
  mkWorld (sessions w) (heap w) (runnerHandles w) (f (runs w)) (broadcasts w)
          (aborted w) (resolved w) (console w) (uncaught w) (runner w).
Definition with_broadcasts (f : list ServerEvent → list ServerEvent) (w : World) : World :=
  mkWorld (sessions w) (heap w) (runnerHandles w) (runs w) (f (broadcasts w))
          (aborted w) (resolved w) (console w) (uncaught w) (runner w).
Definition with_aborted (f : list RunnerHandle → list RunnerHandle) (w : World) : World :=
  mkWorld (sessions w) (heap w) (runnerHandles w) (runs w) (broadcasts w)
          (f (aborted w)) (resolved w) (console w) (uncaught w) (runner w).
Definition with_resolved (f : list (nat * PermissionResult) → list (nat * PermissionResult)) (w : World) : World :=
  mkWorld (sessions w) (heap w) (runnerHandles w) (runs w) (broadcasts w)
          (aborted w) (f (resolved w)) (console w) (uncaught w) (runner w).
Definition with_console (f : list JsValue → list JsValue) (w : World) : World :=
  mkWorld (sessions w) (heap w) (runnerHandles w) (runs w) (broadcasts w)
          (aborted w) (resolved w) (f (console w)) (uncaught w) (runner w).
Definition with_uncaught (f : list JsValue → list JsValue) (w : World) : World :=
  mkWorld (sessions w) (heap w) (runnerHandles w) (runs w) (broadcasts w)
          (aborted w) (resolved w) (console w) (f (uncaught w)) (runner w).

(* ===================================================================== *)
(** ** The [Js] monad: state and exceptions *)
(* ===================================================================== *)

Definition Js (A : Type) : Type := World → Completion A * World.

Definition ret {A} (a : A) : Js A := λ w, (Normal a, w).

Definition bind {A B} (m : Js A) (k : A → Js B) : Js B :=
  λ w, match m w with
       | (Normal a, w') => k a w'
       | (Thrown v, w') => (Thrown v, w')
       end.

Definition throw {A} (v : JsValue) : Js A := λ w, (Thrown v, w).

(** [try { body } catch (error) { handler(error) }] *)
Definition try_catch {A} (body : Js A) (handler : JsValue → Js A) : Js A :=
  λ w, match body w with
       | (Normal a, w') => (Normal a, w')
       | (Thrown v, w') => handler v w'
       end.

(** An expression that does not touch the world. *)
Definition lift {A} (c : Completion A) : Js A := λ w, (c, w).

Definition gets {A} (f : World → A) : Js A := λ w, (Normal (f w), w).
Definition modify (f : World → World) : Js unit := λ w, (Normal tt, f w).

#[global] Instance Js_ret : MRet Js := @ret.
#[global] Instance Js_bind : MBind Js := λ A B k m, bind m k.

(** Running a monadic action for its final world, or for its completion. *)
Definition exec {A} (m : Js A) (w : World) : World := (m w).2.
Definition completion {A} (m : Js A) (w : World) : Completion A := (m w).1.

(* ===================================================================== *)
(** ** runtime-state.ts: operations *)
(* ===================================================================== *)

(** [new Map()]: a fresh, empty map object. *)
Definition newMap : Js loc :=
  λ w, let l := fresh (dom (heap w)) in
       (Normal l, with_heap (insert l ∅) w).

Definition createRuntimeSession (conversationId : string) : Js RuntimeSession :=
  l ← newMap;
  let session := {| conversationId := conversationId;
                    status := Idle;
                    pendingPermissions := l |} in
  modify (with_sessions (insert conversationId session));;
  mret session.

Definition getSession (conversationId : string) : Js (option RuntimeSession) :=
  gets (λ w, sessions w !! conversationId).

Definition updateSession (conversationId : string) (updates : SessionPatch)
  : Js (option RuntimeSession) :=
  session ← gets (λ w, sessions w !! conversationId);
  match session with
  | None => mret None
  | Some session =>
      let session := assign session updates in
      modify (with_sessions (insert conversationId session));;
      mret (Some session)
  end.

Definition deleteSession (conversationId : string) : Js bool :=
  had ← gets (λ w, bool_decide (is_Some (sessions w !! conversationId)));
  modify (with_sessions (delete conversationId));;
  mret had.

(** [map.get(key)] for the map object at [l]. *)
Definition mapGet (h : gmap loc (gmap string PendingPermission)) (l : loc) (key : string)
  : option PendingPermission :=
  match h !! l with
  | Some m => m !! key
  | None => None
  end.

(** [session.pendingPermissions.get(toolUseId)] *)
Definition pendingGet (session : RuntimeSession) (toolUseId : string)
  : Js (option PendingPermission) :=
  gets (λ w, mapGet (heap w) (pendingPermissions session) toolUseId).

(* ===================================================================== *)
(** ** ipc-handlers.ts *)
(* ===================================================================== *)

(** [broadcast] serialises the event and sends it to every open window; the
    model keeps the sequence of events broadcast. *)
Definition broadcast (event : ServerEvent) : Js unit :=
  modify (with_broadcasts (λ log, log ++ [event])).

Definition emit (event : ServerEvent) : Js unit :=
  match event with
  | SessionStatusEv sessionId status _ _ _ =>
      updateSession sessionId {| patch_status := Some status |};;
      broadcast event
  | _ => broadcast event
  end.

(** [console.error] *)
Definition console_error (v : JsValue) : Js unit :=
  modify (with_console (λ log, log ++ [v])).

(** What a closure of the runner does to the map objects. *)
Definition applyEffect
    (effect : loc → gmap string PendingPermission → gmap string PendingPermission)
    (h : gmap loc (gmap string PendingPermission))
  : gmap loc (gmap string PendingPermission) :=
  map_imap (λ l entries, Some (effect l entries)) h.

(** [handle.abort()]: the call is recorded and the runner's closure runs. *)
Definition abort (handle : RunnerHandle) : Js unit :=
  modify (with_aborted (λ log, log ++ [handle]));;
  effect ← gets (λ w, abortEffect (runner w) handle);
  modify (with_heap (applyEffect effect)).

(** [pending.resolve(result)]: the call is recorded and the runner's closure
    runs. *)
Definition call_resolve (pending : PendingPermission) (result : PermissionResult) : Js unit :=
  modify (with_resolved (λ log, log ++ [(resolve pending, result)]));;
  effect ← gets (λ w, resolveEffect (runner w) (resolve pending) result);
  modify (with_heap (applyEffect effect)).

(** The call [runLetta(options)] itself: it is recorded together with what
    its callbacks close over, and the number of the call names the promise
    the handler then awaits. *)
Definition runLetta (options : RunnerOptions) (closure : Closure) : Js nat :=
  rid ← gets (λ w, length (runs w));
  modify (with_runs (λ rs, rs ++ [{| options := options; closure := closure; settled := false |}]));;
  mret rid.

(** [await promise] once the promise has settled. *)
Definition await (outcome : RunnerOutcome) : Js RunnerHandle :=
  match outcome with
  | Resolved handle => mret handle
  | Rejected error => throw error
  end.

(** The common prefix of [session.stop] and [session.delete]. *)
Definition abortHandle (conversationId : string) : Js unit :=
  handle ← gets (λ w, runnerHandles w !! conversationId);
  match handle with
  | Some handle =>
      abort handle;;
      modify (with_runnerHandles (delete conversationId))
  | None => mret tt
  end.

(** [handleClientEvent], up to its first [await] for a start or a continue
    and to its end for every other request.  The payload of a
    [session.continue] has no [cwd], so the [cwd] it passes on is
    [undefined]. *)
Definition handleClientEvent (event : ClientEvent) : Js unit :=
  match event with
  | SessionList =>
      emit (SessionListEv [])
  | SessionHistory sessionId =>
      let conversationId := sessionId in
      session ← getSession conversationId;
      let status := match session with
                    | Some session => status session
                    | None => Idle
                    end in
      emit (SessionHistoryEv conversationId status [])
  | SessionStart title prompt cwd _ =>
      pendingPermissions ← newMap;
      runLetta
        {| opt_prompt := prompt;
           opt_session := {| rs_id := "pending"; rs_title := title;
                             rs_status := Running; rs_cwd := cwd;
                             rs_pendingPermissions := pendingPermissions |};
           opt_resumeConversationId := None |}
        (StartClosure prompt cwd None None);;
      mret tt
  | SessionContinue sessionId prompt =>
      let conversationId := sessionId in
      found ← getSession conversationId;
      runtimeSession ← match found with
                       | Some session => mret session
                       | None => createRuntimeSession conversationId
                       end;
      updateSession conversationId {| patch_status := Some Running |};;
      emit (SessionStatusEv conversationId Running None None None);;
      emit (StreamUserPrompt conversationId prompt);;
      runLetta
        {| opt_prompt := prompt;
           opt_session := {| rs_id := conversationId; rs_title := conversationId;
                             rs_status := Running; rs_cwd := None;
                             rs_pendingPermissions := pendingPermissions runtimeSession |};
           opt_resumeConversationId := Some conversationId |}
        (ContinueClosure conversationId);;
      mret tt
  | SessionStop sessionId =>
      let conversationId := sessionId in
      abortHandle conversationId;;
      updateSession conversationId {| patch_status := Some Idle |};;
      emit (SessionStatusEv conversationId Idle None None None)
  | SessionDelete sessionId =>
      let conversationId := sessionId in
      abortHandle conversationId;;
      deleteSession conversationId;;
      emit (SessionDeletedEv conversationId)
  | PermissionResponse sessionId toolUseId result =>
      session ← getSession sessionId;
      match session with
      | None => mret tt
      | Some session =>
          pending ← pendingGet session toolUseId;
          match pending with
          | Some pending => call_resolve pending result
          | None => mret tt
          end
      end
  end.

(** *** The closures of a run *)

Definition truthy_opt (o : option string) : bool :=
  match o with
  | Some s => truthy s
  | None => false
  end.

(** [payload.sessionId = conversationId], for a payload that has the key
    [sessionId] ([session.list] has none, [runner.error] may have none). *)
Definition hasSessionId (e : ServerEvent) : bool :=
  match e with
  | SessionListEv _ => false
  | RunnerErrorEv None _ => false
  | _ => true
  end.

Definition setSessionId (conversationId : string) (e : ServerEvent) : ServerEvent :=
  match e with
  | StreamMessageEv _ message => StreamMessageEv conversationId message
  | StreamUserPrompt _ prompt => StreamUserPrompt conversationId prompt
  | SessionStatusEv _ status title cwd error =>
      SessionStatusEv conversationId status title cwd error
  | SessionListEv sessions => SessionListEv sessions
  | SessionHistoryEv _ status messages => SessionHistoryEv conversationId status messages
  | SessionDeletedEv _ => SessionDeletedEv conversationId
  | PermissionRequestEv _ toolUseId toolName input =>
      PermissionRequestEv conversationId toolUseId toolName input
  | RunnerErrorEv _ message => RunnerErrorEv (Some conversationId) message
  end.

(** Assignment to a variable captured by the closures of run [rid]. *)
Definition assignClosure (rid : nat) (c : Closure) (rs : list Run) : list Run :=
  match rs !! rid with
  | Some r => <[rid := {| options := options r; closure := c; settled := settled r |}]> rs
  | None => rs
  end.

Definition setClosure (rid : nat) (c : Closure) : Js unit :=
  modify (with_runs (assignClosure rid c)).

Definition settle (rid : nat) (rs : list Run) : list Run :=
  match rs !! rid with
  | Some r => <[rid := {| options := options r; closure := closure r; settled := true |}]> rs
  | None => rs
  end.

Definition markSettled (rid : nat) : Js unit :=
  modify (with_runs (settle rid)).

(** The [onEvent] callback handed to run [rid]. *)
Definition onEvent (c : Closure) (e : ServerEvent) : Js unit :=
  match c with
  | StartClosure _ _ conversationId _ =>
      match conversationId with
      | Some cid =>
          if truthy cid && hasSessionId e then emit (setSessionId cid e) else emit e
      | None => emit e
      end
  | ContinueClosure _ => emit e
  end.

(** The [onSessionUpdate] callback handed to run [rid]. *)
Definition onSessionUpdate (rid : nat) (c : Closure) (updates : SessionUpdates) : Js unit :=
  match c with
  | StartClosure prompt cwd conversationId handle =>
      match lettaConversationId updates with
      | Some new =>
          if truthy new && negb (truthy_opt conversationId) then
            let conversationId := new in
            setClosure rid (StartClosure prompt cwd (Some conversationId) handle);;
            createRuntimeSession conversationId;;
            updateSession conversationId {| patch_status := Some Running |};;
            match handle with
            | Some handle => modify (with_runnerHandles (insert conversationId handle))
            | None => mret tt
            end;;
            emit (SessionStatusEv conversationId Running (Some conversationId) cwd None);;
            emit (StreamUserPrompt conversationId prompt)
          else mret tt
      | None => mret tt
      end
  | ContinueClosure _ => mret tt
  end.

(** The rest of [handleClientEvent] once the promise of run [rid] has
    settled: the end of the [try] block, or the [catch] block.  In either
    [catch] block [String(error)] is evaluated after the statement before
    the [emit] and before the [emit] itself; when it throws, the exception
    leaves the handler. *)
Definition resume (rid : nat) (c : Closure) (outcome : RunnerOutcome) : Js unit :=
  match c with
  | StartClosure prompt cwd conversationId _ =>
      try_catch
        (handle ← await outcome;
         setClosure rid (StartClosure prompt cwd conversationId (Some handle)))
        (λ error,
           console_error error;;
           message ← lift (String_ error);
           emit (RunnerErrorEv None message))
  | ContinueClosure conversationId =>
      try_catch
        (handle ← await outcome;
         modify (with_runnerHandles (insert conversationId handle)))
        (λ error,
           updateSession conversationId {| patch_status := Some Error |};;
           message ← lift (String_ error);
           emit (SessionStatusEv conversationId Error None None (Some message)))
  end.

(** *** What the runner does with the map it was given

    The runner keeps [options.session.pendingPermissions] and registers and
    removes entries in it when a tool asks for approval. *)
Definition runnerSetPending (r : Run) (p : PendingPermission) : Js unit :=
  modify (with_heap (alter (insert (toolUseId p) p)
                           (rs_pendingPermissions (opt_session (options r))))).

Definition runnerDeletePending (r : Run) (toolUseId : string) : Js unit :=
  modify (with_heap (alter (delete toolUseId)
                           (rs_pendingPermissions (opt_session (options r))))).

(* ===================================================================== *)
(** ** The event loop *)
(* ===================================================================== *)

Inductive Label :=
| Client (event : ClientEvent)
| Settle (rid : nat) (outcome : RunnerOutcome)
| OnEvent (rid : nat) (e : ServerEvent)
| OnSessionUpdate (rid : nat) (updates : SessionUpdates)
| SetPending (rid : nat) (p : PendingPermission)
| DeletePending (rid : nat) (toolUseId : string).

(** One turn.  An exception that leaves [handleClientEvent] rejects the
    promise it returned to its caller and is kept in [uncaught]. *)
Definition turn (m : Js unit) (w : World) : World :=
  match m w with
  | (Normal _, w') => w'
  | (Thrown v, w') => with_uncaught (λ log, log ++ [v]) w'
  end.

(** [step l w] is [None] when [l] cannot happen in [w]: a callback or a
    settlement of a call that was never made, or a second settlement. *)
Definition step (l : Label) (w : World) : option World :=
  match l with
  | Client event => Some (turn (handleClientEvent event) w)
  | Settle rid outcome =>
      r ← runs w !! rid;
      if settled r then None
      else Some (turn (markSettled rid;; resume rid (closure r) outcome) w)
  | OnEvent rid e =>
      r ← runs w !! rid;
      Some (turn (onEvent (closure r) e) w)
  | OnSessionUpdate rid updates =>
      r ← runs w !! rid;
      Some (turn (onSessionUpdate rid (closure r) updates) w)
  | SetPending rid p =>
      r ← runs w !! rid;
      Some (turn (runnerSetPending r p) w)
  | DeletePending rid toolUseId =>
      r ← runs w !! rid;
      Some (turn (runnerDeletePending r toolUseId) w)
  end.

Fixpoint steps (ls : list Label) (w : World) : option World :=
  match ls with
  | [] => Some w
  | l :: ls => w' ← step l w; steps ls w'
  end.

(** A world the router can be in, whatever the runner. *)
Definition reachable (w : World) : Prop := ∃ rn ls, steps ls (boot rn) = Some w.

(* ===================================================================== *)
(** ** The message renderer: [MessageCard] *)
(* ===================================================================== *)

(** The store's [PermissionRequest], passed through to the tool-call card. *)
Record PermissionRequest := {
  req_toolUseId : string;
  req_toolName : string;
  req_input : JsValue;
}.

#[local] Set Warnings "-register-all".

(** A React element: one of the file's card components applied to its
    props, a host element with its class and children, or a text node. *)
Inductive Element :=
| UserPromptCard (message : StreamMessage) (showIndicator : bool)
| InitCard (message : StreamMessage) (showIndicator : bool)
| AssistantCard (message : StreamMessage) (showIndicator : bool)
| ReasoningCard (message : StreamMessage) (showIndicator : bool)
| ToolCallCard (message : StreamMessage) (showIndicator : bool)
    (permissionRequest : option PermissionRequest) (onPermissionResult : option nat)
| ToolResultCard (message : StreamMessage)
| Host (tag className : string) (children : list Element)
| Text (s : string).

(** The JSX of the [result] case for a given text. *)
Definition errorCard (text : string) : Element :=
  Host "div" "flex flex-col gap-2 mt-4"
    [ Host "div" "header text-error" [Text "Error"];
      Host "div" "rounded-xl bg-error-light p-3"
        [ Host "pre" "text-sm text-error whitespace-pre-wrap" [Text text] ] ].

(** [MessageCard]; [None] is [null]. *)
Definition MessageCard (message : StreamMessage) (isLast isRunning : bool)
    (permissionRequest : option PermissionRequest) (onPermissionResult : option nat)
  : option Element :=
  let showIndicator := isLast && isRunning in
  match message with
  | UserPromptMessage _ => Some (UserPromptCard message showIndicator)
  | SDKInit _ _ => Some (InitCard message showIndicator)
  | SDKAssistant _ => Some (AssistantCard message showIndicator)
  | SDKReasoning _ => Some (ReasoningCard message showIndicator)
  | SDKToolCall _ _ _ =>
      Some (ToolCallCard message showIndicator permissionRequest onPermissionResult)
  | SDKToolResult _ _ _ => Some (ToolResultCard message)
  | SDKResult success error =>
      if success then None
      else Some (errorCard (or_string error "Unknown error"))
  | SDKOther _ => None
  end.

(** The text nodes of an element, left to right. *)
Fixpoint texts (e : Element) : list string :=
  match e with
  | Host _ _ children => flat_map texts children
  | Text s => [s]
  | _ => []
  end.

(* ===================================================================== *)
(** ** ipc-handlers.ts: shutting down *)
(* ===================================================================== *)

(** [cleanupAllSessions].  The source visits the handles in the insertion
    order of the [Map]; the store of the model keeps no such order, so the
    handles are visited in the order of [map_to_list] and statements about
    the aborts made here are up to their order. *)
Fixpoint forEach {A} (f : A → Js unit) (l : list A) : Js unit :=
  match l with
  | [] => mret tt
  | x :: l => f x;; forEach f l
  end.

Definition cleanupAllSessions : Js unit :=
  handles ← gets (λ w, (map_to_list (runnerHandles w)).*2);
  forEach abort handles;;
  modify (with_runnerHandles (λ _, ∅)).

(** [getAllSessions] *)
Definition getAllSessions : Js (gmap string RuntimeSession) := gets sessions.

(* ===================================================================== *)
(** ** The message renderer: text helpers *)
(* ===================================================================== *)

(** A string is a sequence of code units; the characters of the model are
    the code units below 256. *)
Definition LF : Ascii.ascii := "010"%char.
Definition newline : string := String LF "".

(** [content.split(newline)]: never empty, one more element than there are
    line feeds. *)
Fixpoint splitLines (s : string) : list string :=
  match s with
  | EmptyString => [""]
  | String c rest =>
      if Ascii.eqb c LF then "" :: splitLines rest
      else match splitLines rest with
           | line :: lines => String c line :: lines
           | [] => [String c ""]
           end
  end.

(** [lines.join(sep)] *)
Definition join (sep : string) (lines : list string) : string :=
  String.concat sep lines.

(** [s.slice(n)] and [s.slice(0, n)] on strings. *)
Fixpoint dropString (n : nat) (s : string) : string :=
  match n, s with
  | O, _ => s
  | S n, String _ rest => dropString n rest
  | S _, EmptyString => ""
  end.

Fixpoint takeString (n : nat) (s : string) : string :=
  match n, s with
  | O, _ => ""
  | S n, String c rest => String c (takeString n rest)
  | S _, EmptyString => ""
  end.

(** The index of the first occurrence of [pattern] in [s]. *)
Fixpoint find (pattern s : string) : option nat :=
  if String.prefix pattern s then Some 0
  else match s with
       | EmptyString => None
       | String _ rest => S <$> find pattern rest
       end.

Fixpoint contains (pattern s : string) : bool :=
  String.prefix pattern s
  || match s with
     | EmptyString => false
     | String _ rest => contains pattern rest
     end.

(** A character of the class [\w] and a tag made of such characters only:
    a pattern built from such a tag matches the tag literally. *)
Definition isWordChar (c : ascii) : bool :=
  let n := Ascii.nat_of_ascii c in
  bool_decide (48 ≤ n ≤ 57) || bool_decide (65 ≤ n ≤ 90)
  || bool_decide (97 ≤ n ≤ 122) || bool_decide (n = 95).

Fixpoint isWordTag (tag : string) : bool :=
  match tag with
  | EmptyString => true
  | String c rest => isWordChar c && isWordTag rest
  end.

(** [extractTagContent], for a tag made of letters, digits and underscores
    only ([isWordTag]).  The source puts the tag into the pattern as it is, and such a
    tag is matched literally; the only caller passes [tool_use_error].  The
    result is the text between the first opening tag and the first closing
    tag after it, or [null].  For a tag with other characters the pattern
    may mean something else, and the function says nothing about it. *)
Definition extractTagContent (input tag : string) : option string :=
  let opening := "<" +:+ tag +:+ ">" in
  let closing := "</" +:+ tag +:+ ">" in
  match find opening input with
  | None => None
  | Some i =>
      let rest := dropString (i + String.length opening) input in
      match find closing rest with
      | None => None
      | Some j => Some (takeString j rest)
      end
  end.

(** The class [\s] and the line terminators, among code units below 256. *)
Definition isWhiteSpace (c : Ascii.ascii) : bool :=
  bool_decide (Ascii.nat_of_ascii c ∈ [9; 10; 11; 12; 13; 32; 160]).

Definition isLineTerminator (c : Ascii.ascii) : bool :=
  bool_decide (Ascii.nat_of_ascii c ∈ [10; 13]).

(** The number of [#] that [s] starts with, and what follows them. *)
Fixpoint leadingHashes (s : string) : nat * string :=
  match s with
  | String c rest =>
      if Ascii.eqb c "#"%char then let '(n, after) := leadingHashes rest in (S n, after)
      else (0, s)
  | EmptyString => (0, s)
  end.

(** [#{1,6}\s+] matches at the start of [s]. *)
Definition headingHere (s : string) : bool :=
  let '(n, after) := leadingHashes s in
  bool_decide (1 ≤ n ≤ 6)
  && match after with
     | String c _ => isWhiteSpace c
     | EmptyString => false
     end.

(** [/^#{1,6}\s+/m] matches somewhere in [s]; [atLineStart] tells whether
    [s] begins a line. *)
Fixpoint hasHeading (atLineStart : bool) (s : string) : bool :=
  (atLineStart && headingHere s)
  || match s with
     | EmptyString => false
     | String c rest => hasHeading (isLineTerminator c) rest
     end.

Definition fence : string := "```".

(** The pattern of a fenced block matches somewhere in [s]: a fence, and
    another one after it. *)
Fixpoint hasFencedBlock (s : string) : bool :=
  (String.prefix fence s && contains fence (dropString 3 s))
  || match s with
     | EmptyString => false
     | String _ rest => hasFencedBlock rest
     end.

(** [isMarkdown] *)
Definition isMarkdown (text : string) : bool :=
  if negb (truthy text) then false
  else hasHeading true text || hasFencedBlock text.

(* ===================================================================== *)
(** ** The message renderer: [ToolResultCard] *)
(* ===================================================================== *)

Definition MAX_VISIBLE_LINES : nat := 3.

(** What [ToolResultCard] computes from its message and its [isExpanded]
    state before it builds its elements. *)
Record ToolResultView := {
  lines : list string;
  isMarkdownContent : bool;
  hasMoreLines : bool;
  visibleContent : string;
  hiddenLines : nat;   (* the number in the label of the expand button *)
}.

Definition toolResultView (content : string) (isError isExpanded : bool)
  : ToolResultView :=
  let lines :=
    if isError then [or_string (extractTagContent content "tool_use_error") content]
    else splitLines content in
  let hasMoreLines := bool_decide (MAX_VISIBLE_LINES < length lines) in
  {| lines := lines;
     isMarkdownContent := isMarkdown (join newline lines);
     hasMoreLines := hasMoreLines;
     visibleContent :=
       if hasMoreLines && negb isExpanded
       then join newline (take MAX_VISIBLE_LINES lines)
       else join newline lines;
     hiddenLines := length lines - MAX_VISIBLE_LINES |}.

(* ===================================================================== *)
(** ** The message renderer: tool status *)
(* ===================================================================== *)

Inductive ToolStatus := ToolPending | ToolSuccess | ToolError.

(** [toolStatusMap], the listeners in [toolStatusListeners], and the calls
    made to listeners so far. *)
Record ToolStore := {
  toolStatusMap : gmap string ToolStatus;
  toolStatusListeners : list nat;
  notified : list nat;
}.

Definition setToolStatus (toolCallId : option string) (status : ToolStatus)
    (store : ToolStore) : ToolStore :=
  if negb (truthy_opt toolCallId) then store
  else
    {| toolStatusMap := <[default "" toolCallId := status]> (toolStatusMap store);
       toolStatusListeners := toolStatusListeners store;
       notified := notified store ++ toolStatusListeners store |}.

(** The effect of [ToolResultCard]. *)
Definition toolResultEffect (toolCallId : option string) (isError : bool)
    (store : ToolStore) : ToolStore :=
  setToolStatus toolCallId (if isError then ToolError else ToolSuccess) store.

(** The effect of [ToolCallCard]. *)
Definition toolCallEffect (toolCallId : option string) (store : ToolStore) : ToolStore :=
  if truthy_opt toolCallId
     && negb (bool_decide (is_Some (toolStatusMap store !! default "" toolCallId)))
  then setToolStatus toolCallId ToolPending store
  else store.

(** The status a card reads for its tool call. *)
Definition toolStatusOf (toolCallId : option string) (store : ToolStore)
  : option ToolStatus :=
  if truthy_opt toolCallId then toolStatusMap store !! default "" toolCallId
  else None.

Inductive DotVariant := Accent | Success | Failure.

(** The three flags [ToolCallCard] derives from the status it reads. *)
Definition statusVariant (toolStatus : option ToolStatus) : DotVariant :=
  match toolStatus with
  | Some ToolError => Failure
  | _ => Success
  end.

Definition isPending (toolStatus : option ToolStatus) : bool :=
  match toolStatus with
  | None | Some ToolPending => true
  | _ => false
  end.

Definition shouldShowDot (toolStatus : option ToolStatus) (showIndicator : bool) : bool :=
  match toolStatus with
  | Some ToolSuccess | Some ToolError => true
  | _ => showIndicator
  end.

(* ===================================================================== *)
(** ** The message renderer: [getAskUserQuestionSignature] *)
(* ===================================================================== *)

Record QuestionOption := {
  label : string;
  description : option string;
}.

Record Question := {
  question : string;
  header : option string;
  questionOptions : option (list QuestionOption);
  multiSelect : option bool;
}.

Record AskUserQuestionInput := { questions : option (list Question) }.

Definition optionSignature (o : QuestionOption) : string :=
  label o +:+ "|" +:+ default "" (description o).

Definition questionSignature (q : Question) : string :=
  question q +:+ "|" +:+ default "" (header q) +:+ "|"
    +:+ (if default false (multiSelect q) then "1" else "0") +:+ "|"
    +:+ join "," (optionSignature <$> default [] (questionOptions q)).

Definition getAskUserQuestionSignature (input : option AskUserQuestionInput) : string :=
  match input ≫= questions with
  | None | Some [] => ""
  | Some qs => join "||" (questionSignature <$> qs)
  end.

(* ===================================================================== *)
(** ** Vocabulary of the statements *)
(* ===================================================================== *)

(** The entry a [permission.response] finds, if any. *)
Definition pendingEntry (w : World) (sessionId toolUseId : string)
  : option PendingPermission :=
  match sessions w !! sessionId with
  | Some session => mapGet (heap w) (pendingPermissions session) toolUseId
  | None => None
  end.

(** The part of the world that holds session state. *)
Definition stored (w : World) :=
  (sessions w, heap w, runnerHandles w, aborted w).

(** The world after the common prefix of [session.stop] and
    [session.delete]. *)
Definition afterAbort (sid : string) (w : World) : World :=
  match runnerHandles w !! sid with
  | Some h =>
      with_runnerHandles (delete sid)
        (with_heap (applyEffect (abortEffect (runner w) h))
           (with_aborted (λ log, log ++ [h]) w))
  | None => w
  end.

(** The world after a [permission.response]. *)
Definition afterResponse (sid tid : string) (result : PermissionResult) (w : World)
  : World :=
  match pendingEntry w sid tid with
  | Some p =>
      with_heap (applyEffect (resolveEffect (runner w) (resolve p) result))
        (with_resolved (λ log, log ++ [(resolve p, result)]) w)
  | None => w
  end.

(** The world after the [catch] block of a call that failed with [error]. *)
Definition afterFailure (c : Closure) (error : JsValue) (w : World) : World :=
  match c with
  | StartClosure _ _ _ _ =>
      match String_ error with
      | Normal message =>
          with_broadcasts (λ log, log ++ [RunnerErrorEv None message])
            (with_console (λ log, log ++ [error]) w)
      | Thrown thrown =>
          with_uncaught (λ log, log ++ [thrown])
            (with_console (λ log, log ++ [error]) w)
      end
  | ContinueClosure cid =>
      let marked :=
        with_sessions (alter (λ s, assign s {| patch_status := Some Error |}) cid) w in
      match String_ error with
      | Normal message =>
          with_broadcasts
            (λ log, log ++ [SessionStatusEv cid Error None None (Some message)]) marked
      | Thrown thrown => with_uncaught (λ log, log ++ [thrown]) marked
      end
  end.

(** The world after one call of [handle.abort()]. *)
Definition afterAbortCall (w : World) (h : RunnerHandle) : World :=
  with_heap (applyEffect (abortEffect (runner w) h))
    (with_aborted (λ log, log ++ [h]) w).

(** The [runLetta] call of a [session.continue]. *)
Definition continueRun (cid prompt : string) (l : loc) : Run :=
  {| options :=
       {| opt_prompt := prompt;
          opt_session := {| rs_id := cid; rs_title := cid; rs_status := Running;
                            rs_cwd := None; rs_pendingPermissions := l |};
          opt_resumeConversationId := Some cid |};
     closure := ContinueClosure cid;
     settled := false |}.

(** The [runLetta] call of a [session.start]. *)
Definition startRun (title prompt : string) (cwd : option string) (l : loc) : Run :=
  {| options :=
       {| opt_prompt := prompt;
          opt_session := {| rs_id := "pending"; rs_title := title; rs_status := Running;
                            rs_cwd := cwd; rs_pendingPermissions := l |};
          opt_resumeConversationId := None |};
     closure := StartClosure prompt cwd None None;
     settled := false |}.

(** The world after the first session update that carries a conversation
    id. *)
Definition acknowledged (rid : nat) (prompt : string) (cwd : option string)
    (handle : option RunnerHandle) (cid : string) (w : World) : World :=
  let l := fresh (dom (heap w)) in
  with_broadcasts
    (λ log, (log ++ [SessionStatusEv cid Running (Some cid) cwd None])
            ++ [StreamUserPrompt cid prompt])
    (with_runnerHandles
       (λ hs, match handle with Some h => <[cid := h]> hs | None => hs end)
       (with_sessions
          (insert cid {| conversationId := cid; status := Running;
                         pendingPermissions := l |})
          (with_heap (insert l ∅)
             (with_runs (assignClosure rid (StartClosure prompt cwd (Some cid) handle)) w)))).

(** The event [onEvent] passes to [emit]. *)
Definition relabelTo (conversationId : option string) (e : ServerEvent) : ServerEvent :=
  match conversationId with
  | Some cid => if truthy cid && hasSessionId e then setSessionId cid e else e
  | None => e
  end.

Definition relabel (c : Closure) (e : ServerEvent) : ServerEvent :=
  match c with
  | StartClosure _ _ conversationId _ => relabelTo conversationId e
  | ContinueClosure _ => e
  end.

(** The status carried by the latest [session.status] event for [sid]. *)
Definition noteStatus (sid : string) (acc : option SessionStatus) (e : ServerEvent)
  : option SessionStatus :=
  match e with
  | SessionStatusEv sid' st _ _ _ => if decide (sid' = sid) then Some st else acc
  | _ => acc
  end.

Definition lastStatus (sid : string) (log : list ServerEvent) : option SessionStatus :=
  foldl (noteStatus sid) None log.

Definition consistent (w : World) : Prop :=
  ∀ sid s, sessions w !! sid = Some s →
           lastStatus sid (broadcasts w) = Some (status s).

(** The responses of a client to one request, in order. *)
Definition responses (sid tid : string) (results : list PermissionResult) : list Label :=
  map (λ result, Client (PermissionResponse sid tid result)) results.

Definition isRunningStatus (e : ServerEvent) : bool :=
  match e with
  | SessionStatusEv _ Running _ _ _ => true
  | _ => false
  end.

Definition isRunningFor (cid : string) (e : ServerEvent) : bool :=
  match e with
  | SessionStatusEv sid Running _ _ _ => bool_decide (sid = cid)
  | _ => false
  end.

(** [l] is something run [rid] does, and not a [running] status event that
    the runner sends of its own. *)
Definition ownLabel (rid : nat) (l : Label) : bool :=
  match l with
  | Client _ => false
  | Settle r _ | OnSessionUpdate r _ | SetPending r _ | DeletePending r _ =>
      bool_decide (r = rid)
  | OnEvent r e => bool_decide (r = rid) && negb (isRunningStatus e)
  end.

(** [l] is a session update that carries a conversation id. *)
Definition announces (l : Label) : bool :=
  match l with
  | OnSessionUpdate _ updates => truthy_opt (lettaConversationId updates)
  | _ => false
  end.

(** What a label of a started run makes the router broadcast, given the
    conversation id the run has been acknowledged with so far. *)
Definition output (conversationId : option string) (l : Label) : list ServerEvent :=
  match l with
  | OnEvent _ e => [relabelTo conversationId e]
  | Settle _ (Rejected error) =>
      match String_ error with
      | Normal message => [RunnerErrorEv None message]
      | Thrown _ => []
      end
  | _ => []
  end.

(** [s] has no occurrence of the character [c]. *)
Fixpoint lacks (c : ascii) (s : string) : Prop :=
  match s with
  | EmptyString => True
  | String x rest => x ≠ c ∧ lacks c rest
  end.

(** [n] times the character [#]. *)
Fixpoint hashes (n : nat) : string :=
  match n with
  | O => ""
  | S n => String "#" (hashes n)
  end.

Definition isStart (c : Closure) : bool :=
  match c with
  | StartClosure _ _ _ _ => true
  | ContinueClosure _ => false
  end.

(** The map object handed to the runner of a call. *)
Definition runMap (r : Run) : loc := rs_pendingPermissions (opt_session (options r)).

(** A session is stored under its own id and its map exists; the map of
    every call exists; two sessions never have the same map; and the map of
    a started call is the map of no session. *)
Record wellFormed (w : World) : Prop := {
  wf_table : ∀ k s, sessions w !! k = Some s →
               conversationId s = k ∧ pendingPermissions s ∈ dom (heap w);
  wf_runs : ∀ rid r, runs w !! rid = Some r → runMap r ∈ dom (heap w);
  wf_separate : ∀ k1 k2 s1 s2, k1 ≠ k2 →
                  sessions w !! k1 = Some s1 → sessions w !! k2 = Some s2 →
                  pendingPermissions s1 ≠ pendingPermissions s2;
  wf_started : ∀ rid r k s, runs w !! rid = Some r → isStart (closure r) = true →
                 sessions w !! k = Some s → runMap r ≠ pendingPermissions s;
}.

(** [rs'] has the calls of [rs], with the same options, and no call of it
    is a started one that was not. *)
Definition runsRefine (rs rs' : list Run) : Prop :=
  ∀ rid r', rs' !! rid = Some r' →
    ∃ r, rs !! rid = Some r ∧ options r' = options r
         ∧ (isStart (closure r') = true → isStart (closure r) = true).

(** The labels that run router code only. *)
Definition routerLabel (l : Label) : bool :=
  match l with
  | SetPending _ _ | DeletePending _ _ => false
  | _ => true
  end.

(** The requests in which the router may call a closure of the runner. *)
Definition callsRunner (l : Label) : bool :=
  match l with
  | Client (SessionStop _) | Client (SessionDelete _)
  | Client (PermissionResponse _ _ _) => true
  | _ => false
  end.

(** The labels in which only code of the router runs. *)
Definition ownCode (l : Label) : bool := routerLabel l && negb (callsRunner l).

(** The closure of the runner that the router calls in the turn [l], as
    what the closure does to the maps; [None] when it calls none. *)
Definition closureEffect (l : Label) (w : World)
  : option (loc → gmap string PendingPermission → gmap string PendingPermission) :=
  match l with
  | Client (PermissionResponse sid tid result) =>
      (λ p, resolveEffect (runner w) (resolve p) result) <$> pendingEntry w sid tid
  | Client (SessionStop sid) | Client (SessionDelete sid) =>
      abortEffect (runner w) <$> runnerHandles w !! sid
  | _ => None
  end.




(** The handle a label of the runner returns. *)
Definition returnedBy (l : Label) : option RunnerHandle :=
  match l with
  | Settle _ (Resolved h) => Some h
  | _ => None
  end.


Definition closureHandle (c : Closure) : option RunnerHandle :=
  match c with
  | StartClosure _ _ _ handle => handle
  | ContinueClosure _ => None
  end.

(** Every handle the router holds or has aborted is among [hs]. *)
Record handlesWithin (hs : list RunnerHandle) (w : World) : Prop := {
  within_aborted : ∀ h, h ∈ aborted w → h ∈ hs;
  within_store : ∀ cid h, runnerHandles w !! cid = Some h → h ∈ hs;
  within_runs : ∀ rid r h, runs w !! rid = Some r →
                  closureHandle (closure r) = Some h → h ∈ hs;
}.



(** The [sessionId] of an event's payload, when it has one. *)
Definition sessionIdOf (e : ServerEvent) : option string :=
  match e with
  | StreamMessageEv sid _ | StreamUserPrompt sid _ | SessionStatusEv sid _ _ _ _
  | SessionHistoryEv sid _ _ | SessionDeletedEv sid | PermissionRequestEv sid _ _ _ =>
      Some sid
  | SessionListEv _ => None
  | RunnerErrorEv sid _ => sid
  end.

(** The label is not the failure of a call with a value whose conversion to
    a string throws. *)
Definition printable (l : Label) : bool :=
  match l with
  | Settle _ (Rejected error) =>
      match String_ error with
      | Normal _ => true
      | Thrown _ => false
      end
  | _ => true
  end.

(** The labels that can add or remove a session. *)
Definition changesSessionSet (l : Label) : bool :=
  match l with
  | Client (SessionContinue _ _) | Client (SessionDelete _) | OnSessionUpdate _ _ => true
  | _ => false
  end.

Arguments lastStatus : simpl never.

(* ===================================================================== *)
(** ** Scenarios *)
(* ===================================================================== *)

(** The world after a trace, from the initial world. *)
Definition after (ls : list Label) : World := default initial (steps ls initial).

(** The same for a given runner. *)
Definition afterWith (rn : Runner) (ls : list Label) : World :=
  default (boot rn) (steps ls (boot rn)).

(** A world with one running session and one registered handle. *)
Definition one_session : World :=
  turn (resume 0 (ContinueClosure "c1") (Resolved 5))
       (turn (handleClientEvent (SessionContinue "c1" "hello")) initial).

(** A session is continued, its runner reports completion and then fails. *)
Definition failing_continue : list Label :=
  [ Client (SessionContinue "c1" "hello");
    OnEvent 0 (SessionStatusEv "c1" Completed None None None);
    Settle 0 (Rejected (JsError "Error" "boom")) ].

(** Conversation [c1] is running when a new session is started and the
    call of the start fails. *)
Definition failing_start : list Label :=
  [ Client (SessionContinue "c1" "hello");
    Settle 0 (Resolved 5);
    Client (SessionStart "title" "again" None None);
    Settle 1 (Rejected (JsString "boom")) ].

(** A start, and a continue, whose call fails with [Object.create(null)]. *)
Definition unprintable_start : list Label :=
  [ Client (SessionStart "title" "hello" None None);
    Settle 0 (Rejected bareObject) ].

Definition unprintable_continue : list Label :=
  [ Client (SessionContinue "c1" "hello");
    Settle 0 (Rejected bareObject) ].

(** A pending request. *)
Definition ask : PendingPermission :=
  {| toolUseId := "t1"; toolName := "AskUserQuestion"; input := JsNull; resolve := 7 |}.

(** Conversation [c1] is running under handle 5 when a new session is
    started. *)
Definition restarted : list Label :=
  [ Client (SessionContinue "c1" "hello");
    Settle 0 (Resolved 5);
    Client (SessionStart "title" "again" None None) ].

(** A start whose runner streams a message, is acknowledged as [c1], returns
    its handle, streams again and sends a second session update. *)
Definition early : list Label :=
  [ OnEvent 0 (StreamMessageEv "pending" (SDKInit (Some "c1") None));
    OnSessionUpdate 0 {| lettaConversationId := None |} ].

Definition late : list Label :=
  [ Settle 0 (Resolved 5);
    OnEvent 0 (StreamMessageEv "pending" (SDKAssistant "hi"));
    OnSessionUpdate 0 {| lettaConversationId := Some "c2" |} ].

Definition acknowledged_start : list Label :=
  Client (SessionStart "title" "hello" (Some "/tmp") None)
    :: early ++ OnSessionUpdate 0 {| lettaConversationId := Some "c1" |} :: late.

(** Two conversations are continued. *)
Definition two_sessions : list Label :=
  [ Client (SessionContinue "c1" "hello"); Client (SessionContinue "c2" "hi") ].

(** A session is started, its call returns and it is acknowledged as [c1]. *)
Definition started_and_acknowledged : list Label :=
  [ Client (SessionStart "title" "hello" None None);
    Settle 0 (Resolved 5);
    OnSessionUpdate 0 {| lettaConversationId := Some "c1" |} ].

(** Turns in which the router calls no closure of the runner. *)
Definition own_turns : list Label :=
  [ Client (SessionHistory "c1");
    Client (SessionContinue "c1" "again");
    OnEvent 0 (SessionStatusEv "c1" Completed None None None);
    Settle 1 (Rejected bareObject);
    Client (SessionStart "title" "hello" None None) ].

(** A continued session is restarted and then stopped. *)
Definition stopped : list Label := restarted ++ [ Client (SessionStop "c1") ].

(** A started session is acknowledged as [c1] and its runner registers a
    request in the map it was given. *)
Definition orphaned : list Label := started_and_acknowledged ++ [ SetPending 0 ask ].

(** A continued session whose call has returned handle 5 and whose runner
    has registered a request. *)
Definition running_and_asked : list Label :=
  [ Client (SessionContinue "c1" "hello"); Settle 0 (Resolved 5); SetPending 0 ask ].



(* ===================================================================== *)
(** ** Reasoning about [Js] actions *)
(* ===================================================================== *)

#[local] Set Warnings "-clear-no-such-hyp".

Ltac js_unfold :=
  cbv [mbind mret Js_bind Js_ret bind ret gets modify throw try_catch
       exec completion turn].

Arguments updateSession : simpl never.
Arguments emit : simpl never.
Arguments abortHandle : simpl never.
Arguments createRuntimeSession : simpl never.
Arguments handleClientEvent : simpl never.
Arguments onSessionUpdate : simpl never.
Arguments onEvent : simpl never.
Arguments resume : simpl never.

(** *** The session table *)

Lemma updateSession_eq cid updates w :
  updateSession cid updates w =
    match sessions w !! cid with
    | Some s => (Normal (Some (assign s updates)),
                 with_sessions (insert cid (assign s updates)) w)
    | None => (Normal None, w)
    end.
Proof. unfold updateSession. js_unfold. by destruct (sessions w !! cid). Qed.

Lemma emit_status_eq sid st title cwd error w :
  emit (SessionStatusEv sid st title cwd error) w =
    (Normal tt,
     with_broadcasts (λ log, log ++ [SessionStatusEv sid st title cwd error])
       match sessions w !! sid with
       | Some s => with_sessions (insert sid (assign s {| patch_status := Some st |})) w
       | None => w
       end).
Proof.
  unfold emit. js_unfold. rewrite updateSession_eq.
  by destruct (sessions w !! sid).
Qed.

Lemma emit_other_eq e w :
  (∀ sid st title cwd error, e ≠ SessionStatusEv sid st title cwd error) →
  emit e w = (Normal tt, with_broadcasts (λ log, log ++ [e]) w).
Proof. intros He. destruct e; try done. by destruct (He sessionId status0 title cwd error). Qed.

Lemma emit_prompt_eq sid prompt w :
  emit (StreamUserPrompt sid prompt) w =
    (Normal tt, with_broadcasts (λ log, log ++ [StreamUserPrompt sid prompt]) w).
Proof. done. Qed.

(** *** The closures of the runner *)

Arguments applyEffect : simpl never.

Lemma lookup_applyEffect effect (h : gmap loc (gmap string PendingPermission)) l :
  applyEffect effect h !! l = effect l <$> h !! l.
Proof. unfold applyEffect. rewrite map_lookup_imap. by destruct (h !! l). Qed.

Lemma dom_applyEffect effect (h : gmap loc (gmap string PendingPermission)) :
  dom (applyEffect effect h) = dom h.
Proof.
  apply set_eq. intros l. rewrite !elem_of_dom, lookup_applyEffect.
  apply fmap_is_Some.
Qed.

Lemma applyEffect_quiet (h : gmap loc (gmap string PendingPermission)) :
  applyEffect (λ _ entries, entries) h = h.
Proof.
  apply map_eq. intros l. rewrite lookup_applyEffect. by destruct (h !! l).
Qed.

Lemma abort_eq h w : abort h w = (Normal tt, afterAbortCall w h).
Proof. done. Qed.

Lemma abortHandle_eq cid w : abortHandle cid w = (Normal tt, afterAbort cid w).
Proof.
  unfold abortHandle, afterAbort. js_unfold.
  destruct (runnerHandles w !! cid); [|done]. by rewrite abort_eq.
Qed.

(** What [abortHandle] leaves as it is. *)
Lemma afterAbort_frame sid w :
  sessions (afterAbort sid w) = sessions w
  ∧ runs (afterAbort sid w) = runs w
  ∧ broadcasts (afterAbort sid w) = broadcasts w
  ∧ resolved (afterAbort sid w) = resolved w
  ∧ uncaught (afterAbort sid w) = uncaught w
  ∧ runner (afterAbort sid w) = runner w
  ∧ dom (heap (afterAbort sid w)) = dom (heap w)
  ∧ runnerHandles (afterAbort sid w) = delete sid (runnerHandles w).
Proof.
  unfold afterAbort. destruct (runnerHandles w !! sid) as [h|] eqn:Hh; cbn.
  - split; [done|]. split; [done|]. split; [done|]. split; [done|].
    split; [done|]. split; [done|]. split; [apply dom_applyEffect | done].
  - split; [done|]. split; [done|]. split; [done|]. split; [done|].
    split; [done|]. split; [done|]. split; [done|]. symmetry. by apply delete_id.
Qed.

Lemma afterAbort_again sid w : afterAbort sid (afterAbort sid w) = afterAbort sid w.
Proof.
  destruct (afterAbort_frame sid w) as (_ & _ & _ & _ & _ & _ & _ & Hh).
  unfold afterAbort at 1. by rewrite Hh, lookup_delete_eq.
Qed.

(** What a [permission.response] leaves as it is. *)
Lemma afterResponse_frame sid tid result w :
  sessions (afterResponse sid tid result w) = sessions w
  ∧ runs (afterResponse sid tid result w) = runs w
  ∧ broadcasts (afterResponse sid tid result w) = broadcasts w
  ∧ aborted (afterResponse sid tid result w) = aborted w
  ∧ runnerHandles (afterResponse sid tid result w) = runnerHandles w
  ∧ uncaught (afterResponse sid tid result w) = uncaught w
  ∧ runner (afterResponse sid tid result w) = runner w
  ∧ dom (heap (afterResponse sid tid result w)) = dom (heap w).
Proof.
  unfold afterResponse. destruct (pendingEntry w sid tid) as [p|]; cbn.
  - split; [done|]. split; [done|]. split; [done|]. split; [done|].
    split; [done|]. split; [done|]. split; [done|]. apply dom_applyEffect.
  - split; [done|]. split; [done|]. split; [done|]. split; [done|].
    split; [done|]. split; [done|]. split; done.
Qed.

Lemma world_eq w1 w2 :
  sessions w1 = sessions w2 → heap w1 = heap w2 →
  runnerHandles w1 = runnerHandles w2 → runs w1 = runs w2 →
  broadcasts w1 = broadcasts w2 → aborted w1 = aborted w2 →
  resolved w1 = resolved w2 → console w1 = console w2 →
  uncaught w1 = uncaught w2 → runner w1 = runner w2 → w1 = w2.
Proof. destruct w1, w2; cbn; intros; by subst. Qed.

(* ===================================================================== *)
(** ** Listing and history *)
(* ===================================================================== *)

Lemma list_eq w :
  handleClientEvent SessionList w =
    (Normal tt, with_broadcasts (λ log, log ++ [SessionListEv []]) w).
Proof. done. Qed.

Lemma history_eq sid w :
  handleClientEvent (SessionHistory sid) w =
    (Normal tt,
     with_broadcasts
       (λ log, log ++ [SessionHistoryEv sid
                         match sessions w !! sid with
                         | Some s => status s
                         | None => Idle
                         end []]) w).
Proof. unfold handleClientEvent, getSession. js_unfold. done. Qed.

(** C7.  A [session.list] request makes the router emit one [session.list]
    event with an empty [sessions] array; a [session.history] request makes
    it emit one [session.history] event with an empty [messages] array and
    the stored session's status, or [idle] when the table has no such
    session.  Neither changes anything else, and in particular neither
    calls the runner. *)
Theorem list_and_history_are_stubs (w : World) (sid : string) :
  handleClientEvent SessionList w =
    (Normal tt, with_broadcasts (λ log, log ++ [SessionListEv []]) w)
  ∧ handleClientEvent (SessionHistory sid) w =
    (Normal tt,
     with_broadcasts
       (λ log, log ++ [SessionHistoryEv sid
                         match sessions w !! sid with
                         | Some s => status s
                         | None => Idle
                         end []]) w)
  ∧ runs (exec (handleClientEvent SessionList) w) = runs w
  ∧ runs (exec (handleClientEvent (SessionHistory sid)) w) = runs w.
Proof.
  split; [apply list_eq|]. split; [apply history_eq|].
  unfold exec. by rewrite list_eq, history_eq.
Qed.

(* ===================================================================== *)
(** ** Stop and delete *)
(* ===================================================================== *)

Lemma stop_eq sid w :
  handleClientEvent (SessionStop sid) w =
    (Normal tt,
     with_broadcasts (λ log, log ++ [SessionStatusEv sid Idle None None None])
       (with_sessions (alter (λ s, assign s {| patch_status := Some Idle |}) sid)
          (afterAbort sid w))).
Proof.
  unfold handleClientEvent. js_unfold.
  rewrite abortHandle_eq.
  generalize (afterAbort sid w). intros w0.
  rewrite updateSession_eq; cbn;
    destruct (sessions w0 !! sid) as [s|] eqn:Hw; cbn;
    rewrite emit_status_eq; cbn; rewrite ?lookup_insert_eq, ?Hw; cbn;
    f_equal; apply world_eq; cbn; try done.
  all: try (apply map_eq; intros k; rewrite lookup_alter;
            destruct (decide (sid = k)) as [<-|];
            rewrite ?lookup_insert_eq, ?lookup_insert_ne, ?Hw by done; done).
Qed.

Lemma delete_eq sid w :
  handleClientEvent (SessionDelete sid) w =
    (Normal tt,
     with_broadcasts (λ log, log ++ [SessionDeletedEv sid])
       (with_sessions (delete sid) (afterAbort sid w))).
Proof.
  unfold handleClientEvent, deleteSession. js_unfold.
  by rewrite abortHandle_eq.
Qed.

Lemma alter_assign_idem sid updates (m : gmap string RuntimeSession) :
  alter (λ s, assign s updates) sid (alter (λ s, assign s updates) sid m)
  = alter (λ s, assign s updates) sid m.
Proof.
  apply map_eq; intros k. rewrite !lookup_alter.
  repeat case_decide; simplify_eq; try done.
  destruct (m !! k) as [s|]; [|done].
  cbn. f_equal. unfold assign. cbn. by destruct (patch_status updates).
Qed.

(** C2.  For every conversation id, a [session.stop] or [session.delete]
    request completes normally.  When the table has no session for the id
    the table is left as it was (the session stays absent); when there is no
    runner handle for the id no handle is aborted or removed.  Handling the
    same request a second time leaves the stored state (table, maps, handles
    and the aborts made) exactly as the first time left it. *)
Theorem stop_delete_safe_and_idempotent (w : World) (sid : string) (request : ClientEvent) :
  request = SessionStop sid ∨ request = SessionDelete sid →
  let once := exec (handleClientEvent request) w in
  let twice := exec (handleClientEvent request) once in
  completion (handleClientEvent request) w = Normal tt
  ∧ uncaught (turn (handleClientEvent request) w) = uncaught w
  ∧ (sessions w !! sid = None →
       sessions once = sessions w ∧ sessions once !! sid = None)
  ∧ (runnerHandles w !! sid = None →
       runnerHandles once = runnerHandles w ∧ aborted once = aborted w)
  ∧ (request = SessionDelete sid → sessions once !! sid = None)
  ∧ runnerHandles once !! sid = None
  ∧ stored twice = stored once.
Proof.
  destruct (afterAbort_frame sid w) as (Hses & _ & _ & _ & Hunc & _ & _ & Hstore).
  intros [-> | ->]; cbv zeta; unfold exec, completion, turn, stored.
  - rewrite !stop_eq. cbn -[alter afterAbort].
    set (once := with_broadcasts _ (with_sessions _ (afterAbort sid w))).
    assert (afterAbort sid once
            = with_broadcasts
                (λ log, log ++ [SessionStatusEv sid Idle None None None])
                (with_sessions
                   (alter (λ s, assign s {| patch_status := Some Idle |}) sid)
                   (afterAbort sid w))) as Honce.
    { unfold afterAbort at 1. subst once. cbn -[alter afterAbort].
      by rewrite Hstore, lookup_delete_eq. }
    split; [done|]. split; [done|].
    split; [|split; [|split; [|split]]].
    + intros Hs. rewrite Hses.
      assert (alter (λ s, assign s {| patch_status := Some Idle |}) sid (sessions w)
              = sessions w) as Ha.
      { apply map_eq; intros k. rewrite lookup_alter.
        destruct (decide (sid = k)) as [<-|]; [by rewrite Hs | done]. }
      by rewrite Ha.
    + intros Hnone. unfold afterAbort. by rewrite Hnone.
    + done.
    + rewrite Hstore. apply lookup_delete_eq.
    + rewrite Honce. cbn -[alter afterAbort]. by rewrite alter_assign_idem.
  - rewrite !delete_eq. cbn -[afterAbort].
    set (once := with_broadcasts _ (with_sessions _ (afterAbort sid w))).
    assert (afterAbort sid once
            = with_broadcasts (λ log, log ++ [SessionDeletedEv sid])
                (with_sessions (delete sid) (afterAbort sid w))) as Honce.
    { unfold afterAbort at 1. subst once. cbn -[afterAbort].
      by rewrite Hstore, lookup_delete_eq. }
    split; [done|]. split; [done|].
    split; [|split; [|split; [|split]]].
    + intros Hs. rewrite Hses. split; [by apply delete_id | apply lookup_delete_eq].
    + intros Hnone. unfold afterAbort. by rewrite Hnone.
    + intros _. apply lookup_delete_eq.
    + rewrite Hstore. apply lookup_delete_eq.
    + rewrite Honce. cbn -[afterAbort]. by rewrite delete_delete_eq.
Qed.

Lemma stop_delete_safe_and_idempotent_witness :
  sessions one_session !! "ghost" = None
  ∧ runnerHandles one_session !! "ghost" = None
  ∧ sessions (exec (handleClientEvent (SessionStop "ghost")) one_session)
    = sessions one_session
  ∧ stored (exec (handleClientEvent (SessionDelete "c1"))
              (exec (handleClientEvent (SessionDelete "c1")) one_session))
    = stored (exec (handleClientEvent (SessionDelete "c1")) one_session).
Proof.
  split; [reflexivity|]. split; [reflexivity|]. split.
  - pose proof (stop_delete_safe_and_idempotent one_session "ghost"
                  (SessionStop "ghost") (or_introl eq_refl)) as H.
    cbv zeta in H. destruct H as (_ & _ & H & _).
    apply H. reflexivity.
  - pose proof (stop_delete_safe_and_idempotent one_session "c1"
                  (SessionDelete "c1") (or_intror eq_refl)) as H.
    cbv zeta in H. destruct H as (_ & _ & _ & _ & _ & _ & H). exact H.
Defined.


(* ===================================================================== *)
(** ** Permission responses *)
(* ===================================================================== *)

Lemma response_eq sid tid result w :
  handleClientEvent (PermissionResponse sid tid result) w =
    (Normal tt, afterResponse sid tid result w).
Proof.
  unfold handleClientEvent, getSession, pendingGet, call_resolve, afterResponse,
    pendingEntry.
  js_unfold. destruct (sessions w !! sid) as [s|]; cbn; [|done].
  by destruct (mapGet (heap w) (pendingPermissions s) tid).
Qed.

(** C6.  A [permission.response] whose [sessionId] has no entry in the
    session table, or whose session's [pendingPermissions] map has no entry
    for the [toolUseId], is ignored: the handler completes normally and the
    world after it is the world before it (no state change, no event, no
    callback called). *)
Theorem permission_response_without_entry_is_ignored
    (w : World) (sid tid : string) (result : PermissionResult) :
  sessions w !! sid = None
  ∨ (∃ s, sessions w !! sid = Some s
          ∧ mapGet (heap w) (pendingPermissions s) tid = None) →
  handleClientEvent (PermissionResponse sid tid result) w = (Normal tt, w)
  ∧ step (Client (PermissionResponse sid tid result)) w = Some w.
Proof.
  intros H.
  assert (pendingEntry w sid tid = None) as Hp.
  { unfold pendingEntry. destruct H as [-> | (s & -> & Hs)]; [done|]. exact Hs. }
  unfold step, turn. rewrite response_eq. unfold afterResponse. rewrite Hp. done.
Qed.

Lemma permission_response_without_entry_is_ignored_witness :
  handleClientEvent (PermissionResponse "ghost" "t1" (Deny "no")) one_session
    = (Normal tt, one_session)
  ∧ handleClientEvent (PermissionResponse "c1" "t1" (Deny "no")) one_session
    = (Normal tt, one_session).
Proof.
  split.
  - apply (permission_response_without_entry_is_ignored one_session "ghost" "t1").
    left. reflexivity.
  - apply (permission_response_without_entry_is_ignored one_session "c1" "t1").
    right. eexists. split; reflexivity.
Defined.

(* ===================================================================== *)
(** ** Creating sessions *)
(* ===================================================================== *)

Lemma createRuntimeSession_eq cid w :
  createRuntimeSession cid w =
    let l := fresh (dom (heap w)) in
    let session := {| conversationId := cid; status := Idle; pendingPermissions := l |} in
    (Normal session,
     with_sessions (insert cid session) (with_heap (insert l ∅) w)).
Proof. done. Qed.

Lemma continue_eq cid prompt w :
  handleClientEvent (SessionContinue cid prompt) w =
    (Normal tt,
     match sessions w !! cid with
     | Some s =>
         with_runs (λ rs, rs ++ [continueRun cid prompt (pendingPermissions s)])
           (with_broadcasts
              (λ log, (log ++ [SessionStatusEv cid Running None None None])
                      ++ [StreamUserPrompt cid prompt])
              (with_sessions
                 (insert cid (assign s {| patch_status := Some Running |})) w))
     | None =>
         let l := fresh (dom (heap w)) in
         with_runs (λ rs, rs ++ [continueRun cid prompt l])
           (with_broadcasts
              (λ log, (log ++ [SessionStatusEv cid Running None None None])
                      ++ [StreamUserPrompt cid prompt])
              (with_sessions
                 (insert cid {| conversationId := cid; status := Running;
                                pendingPermissions := l |})
                 (with_heap (insert l ∅) w)))
     end).
Proof.
  unfold handleClientEvent, getSession, runLetta. js_unfold.
  destruct (sessions w !! cid) as [s|] eqn:Hs.
  - rewrite updateSession_eq, Hs. rewrite emit_status_eq. cbn.
    rewrite lookup_insert_eq. cbn.
    f_equal. apply world_eq; cbn; try done.
    by rewrite insert_insert_eq.
  - rewrite createRuntimeSession_eq. cbn.
    rewrite updateSession_eq. cbn. rewrite lookup_insert_eq.
    rewrite emit_status_eq. cbn. rewrite lookup_insert_eq. cbn.
    f_equal. apply world_eq; cbn; try done.
    by rewrite !insert_insert_eq.
Qed.

(** C9.  [createRuntimeSession] returns a session whose status is [idle]
    and whose [pendingPermissions] is a new, empty map, and stores it under
    the conversation id in place of whatever was there, so the status and
    the map of a session it replaces are no longer in the table.
    [session.continue] creates a session only when the table has none for
    the id; when it has one it keeps that session's map and hands the very
    same map object to the runner. *)
Theorem create_replaces_and_continue_reuses (w : World) (cid prompt : string) :
  (∃ s w', createRuntimeSession cid w = (Normal s, w')
     ∧ conversationId s = cid
     ∧ status s = Idle
     ∧ heap w' !! pendingPermissions s = Some ∅
     ∧ (pendingPermissions s ∉ dom (heap w))
     ∧ sessions w' = <[cid := s]> (sessions w)
     ∧ (∀ l, l ∈ dom (heap w) → heap w' !! l = heap w !! l)
     ∧ (∀ tid, pendingEntry w' cid tid = None))
  ∧ (∀ old, sessions w !! cid = Some old →
       let w' := exec (handleClientEvent (SessionContinue cid prompt)) w in
       heap w' = heap w
       ∧ sessions w' !! cid
         = Some {| conversationId := conversationId old; status := Running;
                   pendingPermissions := pendingPermissions old |}
       ∧ runs w' = runs w ++ [continueRun cid prompt (pendingPermissions old)]
       ∧ (∀ tid, pendingEntry w' cid tid = pendingEntry w cid tid))
  ∧ (sessions w !! cid = None →
       let w' := exec (handleClientEvent (SessionContinue cid prompt)) w in
       ∃ l, (l ∉ dom (heap w))
         ∧ heap w' = <[l := ∅]> (heap w)
         ∧ sessions w' !! cid
           = Some {| conversationId := cid; status := Running;
                     pendingPermissions := l |}
         ∧ runs w' = runs w ++ [continueRun cid prompt l]).
Proof.
  split; [|split].
  - eexists _, _. split; [apply createRuntimeSession_eq|]. cbn.
    split; [done|]. split; [done|]. split; [apply lookup_insert_eq|].
    split; [apply is_fresh|]. split; [done|]. split.
    + intros l Hl. apply lookup_insert_ne. intros <-. by apply is_fresh in Hl.
    + intros tid. unfold pendingEntry, mapGet. cbn.
      by rewrite !lookup_insert_eq.
  - intros old Hold. cbv zeta. unfold exec. rewrite continue_eq, Hold. cbn.
    split; [done|]. split; [apply lookup_insert_eq|]. split; [done|].
    intros tid. unfold pendingEntry. cbn. by rewrite lookup_insert_eq, Hold.
  - intros Hnone. cbv zeta. unfold exec. rewrite continue_eq, Hnone. cbn.
    eexists. split; [apply is_fresh|]. repeat split. apply lookup_insert_eq.
Qed.

Lemma create_replaces_and_continue_reuses_witness :
  sessions one_session !! "c1"
    = Some {| conversationId := "c1"; status := Running; pendingPermissions := 1%positive |}
  ∧ runs (exec (handleClientEvent (SessionContinue "c1" "again")) one_session)
    = runs one_session ++ [continueRun "c1" "again" 1%positive]
  ∧ sessions initial !! "c1" = None
  ∧ ∃ l, (l ∉ dom (heap initial))
      ∧ heap (exec (handleClientEvent (SessionContinue "c1" "hello")) initial)
        = <[l := ∅]> (heap initial)
      ∧ sessions (exec (handleClientEvent (SessionContinue "c1" "hello")) initial) !! "c1"
        = Some {| conversationId := "c1"; status := Running; pendingPermissions := l |}
      ∧ runs (exec (handleClientEvent (SessionContinue "c1" "hello")) initial)
        = runs initial ++ [continueRun "c1" "hello" l].
Proof.
  split; [reflexivity|]. split; [|split; [reflexivity|]].
  - pose proof (create_replaces_and_continue_reuses one_session "c1" "again")
      as (_ & H & _).
    apply (H _ eq_refl).
  - pose proof (create_replaces_and_continue_reuses initial "c1" "hello")
      as (_ & _ & H).
    apply H. reflexivity.
Defined.

(* ===================================================================== *)
(** ** The callbacks and the code after the [await] *)
(* ===================================================================== *)

Lemma onSessionUpdate_start_eq rid prompt cwd c handle updates w :
  onSessionUpdate rid (StartClosure prompt cwd c handle) updates w =
    (Normal tt,
     match lettaConversationId updates with
     | Some cid =>
         if truthy cid && negb (truthy_opt c)
         then acknowledged rid prompt cwd handle cid w
         else w
     | None => w
     end).
Proof.
  unfold onSessionUpdate. destruct (lettaConversationId updates) as [cid|]; [|done].
  destruct (truthy cid && negb (truthy_opt c)); [|done].
  unfold setClosure. js_unfold.
  rewrite createRuntimeSession_eq. cbn.
  rewrite updateSession_eq. cbn. rewrite lookup_insert_eq.
  destruct handle as [h|]; cbn; rewrite emit_status_eq; cbn;
    rewrite lookup_insert_eq; cbn; rewrite emit_prompt_eq;
    f_equal; apply world_eq; cbn; try done;
    by rewrite !insert_insert_eq.
Qed.

Lemma onSessionUpdate_continue_eq rid cid updates w :
  onSessionUpdate rid (ContinueClosure cid) updates w = (Normal tt, w).
Proof. done. Qed.

Lemma onEvent_eq c e w : onEvent c e w = emit (relabel c e) w.
Proof.
  unfold onEvent, relabel, relabelTo. destruct c as [? ? [cid|] ?|]; try done.
  by destruct (truthy cid && hasSessionId e).
Qed.

Lemma resume_resolved_eq rid c h w :
  resume rid c (Resolved h) w =
    (Normal tt,
     match c with
     | StartClosure prompt cwd cid _ =>
         with_runs (assignClosure rid (StartClosure prompt cwd cid (Some h))) w
     | ContinueClosure cid => with_runnerHandles (insert cid h) w
     end).
Proof. by destruct c. Qed.

Lemma resume_resolved_turn rid c h w :
  turn (resume rid c (Resolved h)) w =
    match c with
    | StartClosure prompt cwd cid _ =>
        with_runs (assignClosure rid (StartClosure prompt cwd cid (Some h))) w
    | ContinueClosure cid => with_runnerHandles (insert cid h) w
    end.
Proof. unfold turn. by rewrite resume_resolved_eq. Qed.

(** The [catch] blocks: the handler completes as [String(error)] does. *)
Lemma resume_rejected_eq rid c v w :
  resume rid c (Rejected v) w =
    match String_ v with
    | Normal _ => (Normal tt, afterFailure c v w)
    | Thrown thrown =>
        (Thrown thrown,
         match c with
         | StartClosure _ _ _ _ => with_console (λ log, log ++ [v]) w
         | ContinueClosure cid =>
             with_sessions
               (alter (λ s, assign s {| patch_status := Some Error |}) cid) w
         end)
    end.
Proof.
  destruct c as [prompt cwd cid h|cid].
  - unfold resume, await, console_error, lift, afterFailure. js_unfold.
    by destruct (String_ v).
  - unfold resume, await, lift, afterFailure. js_unfold.
    rewrite updateSession_eq.
    destruct (sessions w !! cid) as [s|] eqn:Hs; cbn;
      destruct (String_ v) as [message|thrown]; cbn;
      rewrite ?emit_status_eq; cbn; rewrite ?lookup_insert_eq, ?Hs; cbn;
      f_equal; apply world_eq; cbn; try done;
      apply map_eq; intros k; rewrite lookup_alter;
      case_decide; simplify_eq; rewrite ?lookup_insert_eq, ?lookup_insert_ne, ?Hs by done;
      done.
Qed.

Lemma resume_rejected_turn rid c v w :
  turn (resume rid c (Rejected v)) w = afterFailure c v w.
Proof.
  unfold turn. rewrite resume_rejected_eq. unfold afterFailure.
  destruct (String_ v); [done|]. by destruct c.
Qed.

(** What the [catch] blocks leave as they are. *)
Lemma afterFailure_frame c v w :
  heap (afterFailure c v w) = heap w
  ∧ runs (afterFailure c v w) = runs w
  ∧ runnerHandles (afterFailure c v w) = runnerHandles w
  ∧ aborted (afterFailure c v w) = aborted w
  ∧ resolved (afterFailure c v w) = resolved w
  ∧ runner (afterFailure c v w) = runner w
  ∧ sessions (afterFailure c v w)
    = match c with
      | StartClosure _ _ _ _ => sessions w
      | ContinueClosure cid =>
          alter (λ s, assign s {| patch_status := Some Error |}) cid (sessions w)
      end.
Proof.
  unfold afterFailure. destruct c; destruct (String_ v); cbn;
    (split; [done|]; split; [done|]; split; [done|]; split; [done|];
     split; [done|]; split; done).
Qed.

(* ===================================================================== *)
(** ** The stored status follows the status events *)
(* ===================================================================== *)

Lemma lastStatus_snoc sid log e :
  lastStatus sid (log ++ [e]) = noteStatus sid (lastStatus sid log) e.
Proof. unfold lastStatus. by rewrite foldl_app. Qed.

Lemma consistent_same w w' :
  sessions w' = sessions w → broadcasts w' = broadcasts w →
  consistent w → consistent w'.
Proof. unfold consistent. intros -> ->. done. Qed.

(** [emit] restores consistency at the session the event names and keeps it
    everywhere else. *)
Lemma emit_consistent e w :
  (∀ sid s, (∀ st title cwd error, e ≠ SessionStatusEv sid st title cwd error) →
            sessions w !! sid = Some s →
            lastStatus sid (broadcasts w) = Some (status s)) →
  consistent (exec (emit e) w).
Proof.
  intros Hw sid s. unfold exec.
  destruct e as [| |sid' st title cwd error| | | | |];
    try (rewrite emit_other_eq by (intros; discriminate);
         cbn; rewrite lastStatus_snoc; cbn;
         intros Hs; eapply Hw; [intros; discriminate | exact Hs]).
  rewrite emit_status_eq. cbn. rewrite lastStatus_snoc. cbn.
  destruct (decide (sid' = sid)) as [->|Hne].
  - destruct (sessions w !! sid) as [s0|] eqn:Hs0; cbn.
    + rewrite lookup_insert_eq. by intros [= <-].
    + by rewrite Hs0.
  - assert (∀ st0 title0 cwd0 error0,
              SessionStatusEv sid' st title cwd error
              ≠ SessionStatusEv sid st0 title0 cwd0 error0) as Hd by congruence.
    destruct (sessions w !! sid') as [s0|] eqn:Hs0; cbn.
    + rewrite lookup_insert_ne by done. intros Hs. by eapply Hw.
    + intros Hs. by eapply Hw.
Qed.

Lemma emit_preserves_consistent e w : consistent w → consistent (exec (emit e) w).
Proof. intros Hw. apply emit_consistent. intros sid s _. apply Hw. Qed.

Lemma turn_normal (m : Js unit) w w' : m w = (Normal tt, w') → turn m w = w'.
Proof. unfold turn. by intros ->. Qed.

Lemma emit_normal e w : emit e w = (Normal tt, exec (emit e) w).
Proof.
  unfold exec. destruct e; try done. rewrite emit_status_eq. done.
Qed.

Lemma handleClientEvent_consistent event w :
  consistent w → consistent (turn (handleClientEvent event) w).
Proof.
  intros Hw. destruct event as [title prompt cwd tools|cid prompt|sid|sid| |sid|sid tid result].
  - eapply consistent_same; [| |exact Hw]; done.
  - erewrite turn_normal by apply continue_eq.
    intros sid s. destruct (sessions w !! cid) as [old|] eqn:Hold; cbn;
      rewrite !lastStatus_snoc; cbn;
      (destruct (decide (cid = sid)) as [->|Hne];
       [rewrite lookup_insert_eq; by intros [= <-]
       |rewrite lookup_insert_ne by done; apply Hw]).
  - erewrite turn_normal by apply stop_eq.
    destruct (afterAbort_frame sid w) as (Hses & _ & Hlog & _).
    intros k s. cbn -[afterAbort]. rewrite lastStatus_snoc, Hses, Hlog. cbn.
    rewrite lookup_alter. destruct (decide (sid = k)) as [->|Hne].
    + destruct (sessions w !! k); cbn; [|done]. by intros [= <-].
    + apply Hw.
  - erewrite turn_normal by apply delete_eq.
    destruct (afterAbort_frame sid w) as (Hses & _ & Hlog & _).
    intros k s. cbn -[afterAbort]. rewrite lastStatus_snoc, Hses, Hlog. cbn.
    rewrite lookup_delete. case_decide; [done|]. apply Hw.
  - erewrite turn_normal by apply list_eq.
    intros k s. cbn. rewrite lastStatus_snoc. apply Hw.
  - erewrite turn_normal by apply history_eq.
    intros k s. cbn. rewrite lastStatus_snoc. apply Hw.
  - erewrite turn_normal by apply response_eq.
    destruct (afterResponse_frame sid tid result w) as (Hses & _ & Hlog & _).
    eapply consistent_same; [| |exact Hw]; done.
Qed.

Lemma settle_turn_eq rid c outcome w :
  turn (markSettled rid;; resume rid c outcome) w
  = turn (resume rid c outcome) (with_runs (settle rid) w).
Proof. unfold turn, markSettled. js_unfold. done. Qed.

Lemma step_consistent l w w' :
  printable l = true → consistent w → step l w = Some w' → consistent w'.
Proof.
  intros Hl Hw. destruct l as [event|rid outcome|rid e|rid updates|rid p|rid tid]; cbn.
  - intros [= <-]. by apply handleClientEvent_consistent.
  - destruct (runs w !! rid) as [r|]; cbn; [|done].
    destruct (settled r); [done|]. intros [= <-].
    rewrite settle_turn_eq.
    destruct outcome as [h|v].
    + rewrite resume_resolved_turn.
      eapply consistent_same; [| |exact Hw]; by destruct (closure r).
    + rewrite resume_rejected_turn. unfold afterFailure.
      cbn in Hl. destruct (String_ v) as [message|thrown]; [|done].
      destruct (closure r) as [prompt cwd cid h|cid]; cbn.
      * intros k s. cbn. rewrite lastStatus_snoc. apply Hw.
      * intros k s. cbn. rewrite lastStatus_snoc. cbn.
        rewrite lookup_alter. destruct (decide (cid = k)) as [->|Hne].
        -- destruct (sessions w !! k); cbn; [|done]. by intros [= <-].
        -- apply Hw.
  - destruct (runs w !! rid) as [r|]; cbn; [|done]. intros [= <-].
    erewrite turn_normal by (rewrite onEvent_eq; apply emit_normal).
    by apply emit_preserves_consistent.
  - destruct (runs w !! rid) as [r|]; cbn; [|done]. intros [= <-].
    destruct (closure r) as [prompt cwd c h|cid].
    + erewrite turn_normal by apply onSessionUpdate_start_eq.
      destruct (lettaConversationId updates) as [cid|]; [|done].
      destruct (truthy cid && negb (truthy_opt c)); [|done].
      intros k s. unfold acknowledged. cbn.
      rewrite !lastStatus_snoc. cbn.
      destruct (decide (cid = k)) as [->|Hne].
      * rewrite lookup_insert_eq. by intros [= <-].
      * rewrite lookup_insert_ne by done. apply Hw.
    + by erewrite turn_normal by apply onSessionUpdate_continue_eq.
  - destruct (runs w !! rid) as [r|]; cbn; [|done]. intros [= <-].
    eapply consistent_same; [| |exact Hw]; done.
  - destruct (runs w !! rid) as [r|]; cbn; [|done]. intros [= <-].
    eapply consistent_same; [| |exact Hw]; done.
Qed.

Lemma steps_consistent ls w w' :
  forallb printable ls = true → consistent w → steps ls w = Some w' → consistent w'.
Proof.
  revert w. induction ls as [|l ls IH]; intros w Hls Hw; cbn.
  - by intros [= <-].
  - cbn in Hls. apply andb_prop in Hls as [Hl Hls].
    destruct (step l w) as [w1|] eqn:Hstep; cbn; [|done].
    apply IH; [done|]. by eapply step_consistent.
Qed.

Lemma boot_consistent rn : consistent (boot rn).
Proof. intros sid s. cbn. by rewrite lookup_empty. Qed.

Lemma emit_stores_then_broadcasts :
  (∀ w sid st title cwd error,
     let e := SessionStatusEv sid st title cwd error in
     emit e w
       = broadcast e (exec (updateSession sid {| patch_status := Some st |}) w)
     ∧ (∀ s, sessions w !! sid = Some s →
             sessions (exec (emit e) w)
             = <[sid := {| conversationId := conversationId s; status := st;
                           pendingPermissions := pendingPermissions s |}]> (sessions w))
     ∧ (sessions w !! sid = None → sessions (exec (emit e) w) = sessions w)
     ∧ broadcasts (exec (emit e) w) = broadcasts w ++ [e])
  ∧ (∀ w e,
       (∀ sid st title cwd error, e ≠ SessionStatusEv sid st title cwd error) →
       sessions (exec (emit e) w) = sessions w
       ∧ broadcasts (exec (emit e) w) = broadcasts w ++ [e]).
Proof.
  split.
  - intros w sid st title cwd error e. subst e. split; [|split; [|split]].
    + unfold emit, exec. js_unfold. rewrite updateSession_eq.
      by destruct (sessions w !! sid).
    + intros s Hs. unfold exec. rewrite emit_status_eq, Hs. done.
    + intros Hs. unfold exec. rewrite emit_status_eq, Hs. done.
    + unfold exec. rewrite emit_status_eq. by destruct (sessions w !! sid).
  - intros w e He. unfold exec. by rewrite emit_other_eq.
Qed.

(** As long as no call fails with a value whose conversion to a string
    throws, the status stored for a session is the status of the latest
    [session.status] event broadcast for its id. *)
Lemma stored_status_current_while_printable rn ls w sid s :
  forallb printable ls = true → steps ls (boot rn) = Some w →
  sessions w !! sid = Some s →
  lastStatus sid (broadcasts w) = Some (status s).
Proof.
  intros Hls Hsteps. revert sid s.
  eapply steps_consistent; [exact Hls | apply boot_consistent | exact Hsteps].
Qed.

(** C8.  [emit] stores the status of a [session.status] event before it
    broadcasts the event, and the handlers pair every status they store
    with such an event.  The pair is broken in the [catch] block of a
    [session.continue]: [updateSession] has stored [error] when
    [String(error)] is evaluated for the event, and when that throws, as it
    does for [Object.create(null)], no event follows.  The stored status of
    the session is then [error], the latest [session.status] event broadcast
    for its id says [running], and the handler has rejected with the
    [TypeError]. *)
Theorem stored_status_outruns_status_events (rn : Runner) :
  let w := afterWith rn unprintable_continue in
  steps unprintable_continue (boot rn) = Some w
  ∧ (status <$> sessions w !! "c1") = Some Error
  ∧ broadcasts w
    = [ SessionStatusEv "c1" Running None None None; StreamUserPrompt "c1" "hello" ]
  ∧ lastStatus "c1" (broadcasts w) = Some Running
  ∧ uncaught w = [typeError].
Proof.
  cbv zeta. split; [|split; [|split; [|split]]]; vm_compute; reflexivity.
Qed.

(* ===================================================================== *)
(** ** A runner that fails *)
(* ===================================================================== *)

Lemma step_settle_eq rid r outcome w :
  runs w !! rid = Some r → settled r = false →
  step (Settle rid outcome) w
  = Some (turn (resume rid (closure r) outcome) (with_runs (settle rid) w)).
Proof. intros Hr Hs. cbn. rewrite Hr. cbn. rewrite Hs. by rewrite settle_turn_eq. Qed.

Lemma start_eq title prompt cwd tools w :
  handleClientEvent (SessionStart title prompt cwd tools) w =
    let l := fresh (dom (heap w)) in
    (Normal tt,
     with_runs (λ rs, rs ++ [startRun title prompt cwd l])
       (with_heap (insert l ∅) w)).
Proof. done. Qed.

(** What [session.start] and [session.continue] leave pending. *)
Lemma start_run_pending title prompt cwd tools w :
  ∃ r, runs (turn (handleClientEvent (SessionStart title prompt cwd tools)) w)
         !! length (runs w) = Some r
       ∧ closure r = StartClosure prompt cwd None None ∧ settled r = false.
Proof.
  erewrite turn_normal by apply start_eq.
  eexists. split.
  - cbn. by rewrite lookup_app_r, Nat.sub_diag.
  - done.
Qed.

Lemma continue_run_pending cid prompt w :
  ∃ r, runs (turn (handleClientEvent (SessionContinue cid prompt)) w)
         !! length (runs w) = Some r
       ∧ closure r = ContinueClosure cid ∧ settled r = false.
Proof.
  erewrite turn_normal by apply continue_eq.
  destruct (sessions w !! cid); eexists;
    (split; [cbn; by rewrite lookup_app_r, Nat.sub_diag | done]).
Qed.

(** C1, as the code has it.  When the promise of a pending [runLetta] call
    is rejected with a value that [String] converts to a string, the rest
    of [handleClientEvent] completes normally: nothing is rethrown to the
    caller.  For a [session.continue] it broadcasts a [session.status]
    event with status [error] whose [error] field is the stringified value,
    and the table entry of that conversation, when there is one, gets status
    [error].  For a [session.start] it broadcasts a [runner.error] event,
    without session id, whose message is the stringified value, and leaves
    the session table as it is. *)
Theorem runner_failure_is_caught
    (w : World) (rid : nat) (r : Run) (error : JsValue) (message : string) :
  runs w !! rid = Some r → settled r = false →
  String_ error = Normal message →
  completion (resume rid (closure r) (Rejected error)) (with_runs (settle rid) w)
    = Normal tt
  ∧ ∃ w', step (Settle rid (Rejected error)) w = Some w'
      ∧ uncaught w' = uncaught w
      ∧ match closure r with
        | StartClosure _ _ _ _ =>
            broadcasts w' = broadcasts w ++ [RunnerErrorEv None message]
            ∧ sessions w' = sessions w
        | ContinueClosure cid =>
            broadcasts w'
              = broadcasts w ++ [SessionStatusEv cid Error None None (Some message)]
            ∧ (∀ s, sessions w !! cid = Some s →
                    sessions w' !! cid
                    = Some {| conversationId := conversationId s; status := Error;
                              pendingPermissions := pendingPermissions s |})
        end.
Proof.
  intros Hr Hs Hmessage. split.
  - unfold completion. by rewrite resume_rejected_eq, Hmessage.
  - eexists. split; [by apply step_settle_eq|].
    rewrite resume_rejected_turn. unfold afterFailure. rewrite Hmessage.
    destruct (closure r) as [prompt cwd cid h|cid]; cbn; [done|].
    split; [done|]. split; [done|].
    intros s Hcid. by rewrite lookup_alter_eq, Hcid.
Qed.

Lemma runner_failure_is_caught_witness :
  let w := turn (handleClientEvent (SessionContinue "c1" "hello")) initial in
  let r := continueRun "c1" "hello" 1%positive in
  let error := JsError "Error" "boom" in
  runs w !! 0 = Some r
  ∧ settled r = false
  ∧ String_ error = Normal "Error: boom"
  ∧ completion (resume 0 (closure r) (Rejected error)) (with_runs (settle 0) w)
    = Normal tt
  ∧ ∃ w', step (Settle 0 (Rejected error)) w = Some w'
      ∧ uncaught w' = uncaught w
      ∧ broadcasts w'
        = broadcasts w ++ [SessionStatusEv "c1" Error None None (Some "Error: boom")]
      ∧ (∀ s, sessions w !! "c1" = Some s →
              sessions w' !! "c1"
              = Some {| conversationId := conversationId s; status := Error;
                        pendingPermissions := pendingPermissions s |}).
Proof.
  cbv zeta. split; [vm_compute; reflexivity|]. split; [reflexivity|].
  split; [reflexivity|].
  apply (runner_failure_is_caught
           (turn (handleClientEvent (SessionContinue "c1" "hello")) initial) 0
           (continueRun "c1" "hello" 1%positive) (JsError "Error" "boom")
           "Error: boom").
  - vm_compute. reflexivity.
  - reflexivity.
  - reflexivity.
Defined.

(** The claim of C1 fails in two ways.  The call of a [session.start] fails
    while conversation [c1] is running: the router broadcasts
    [runner.error] and marks no session, [c1] is the only session in the
    table and it still has status [running].  And the call of a
    [session.start] fails with [Object.create(null)]: [String(error)] throws
    in the [catch] block, no event is broadcast and the handler rejects
    with the [TypeError]. *)
Lemma start_failure_marks_no_session :
  steps failing_start initial = Some (after failing_start)
  ∧ sessions (after failing_start)
    = {[ "c1" := {| conversationId := "c1"; status := Running;
                    pendingPermissions := 1%positive |} ]}
  ∧ broadcasts (after failing_start)
    = [ SessionStatusEv "c1" Running None None None;
        StreamUserPrompt "c1" "hello";
        RunnerErrorEv None "boom" ]
  ∧ uncaught (after failing_start) = []
  ∧ steps unprintable_start initial = Some (after unprintable_start)
  ∧ broadcasts (after unprintable_start) = []
  ∧ uncaught (after unprintable_start) = [typeError].
Proof.
  split; [|split; [|split; [|split; [|split; [|split]]]]]; vm_compute; reflexivity.
Qed.

(* ===================================================================== *)
(** ** Resolving pending permissions *)
(* ===================================================================== *)

Lemma step_response_eq sid tid result w :
  step (Client (PermissionResponse sid tid result)) w
  = Some (afterResponse sid tid result w).
Proof. cbn. by erewrite turn_normal by apply response_eq. Qed.

(** A response that finds an entry calls its [resolve] once, with the
    result of the response. *)
Lemma response_calls_resolve sid tid result p w :
  pendingEntry w sid tid = Some p →
  resolved (afterResponse sid tid result w) = resolved w ++ [(resolve p, result)].
Proof. intros Hp. unfold afterResponse. by rewrite Hp. Qed.

(** Responses that find no entry change nothing, however many they are. *)
Lemma responses_without_entry sid tid results w :
  pendingEntry w sid tid = None → steps (responses sid tid results) w = Some w.
Proof.
  intros Hp. induction results as [|result results IH]; [done|].
  cbn [responses map steps]. rewrite step_response_eq.
  unfold afterResponse. rewrite Hp. exact IH.
Qed.

(** C3.  The router looks for a pending entry in the map of the stored
    session.  A [session.continue] hands that very map to the runner, so a
    request its runner registers is found by the first matching response.
    A [session.start] hands the runner a map of its own, and the session
    stored at the acknowledgement gets another one.  So, whatever the
    closures of the runner do: after a start whose call returned and was
    acknowledged as [c1], a request that the runner registers in the map it
    was given is found by no [permission.response] for [c1], every matching
    response is ignored, and the callback of the request is never called. *)
Theorem started_session_request_is_never_resolved
    (rn : Runner) (results : list PermissionResult) :
  let w := afterWith rn orphaned in
  steps orphaned (boot rn) = Some w
  ∧ (runMap <$> runs w !! 0) = Some 1%positive
  ∧ (pendingPermissions <$> sessions w !! "c1") = Some 2%positive
  ∧ mapGet (heap w) 1%positive "t1" = Some ask
  ∧ pendingEntry w "c1" "t1" = None
  ∧ resolved w = []
  ∧ steps (responses "c1" "t1" results) w = Some w.
Proof.
  cbv zeta.
  split; [vm_compute; reflexivity|]. split; [vm_compute; reflexivity|].
  split; [vm_compute; reflexivity|]. split; [vm_compute; reflexivity|].
  split; [vm_compute; reflexivity|]. split; [vm_compute; reflexivity|].
  apply responses_without_entry. vm_compute. reflexivity.
Qed.

(** On the other path, with a runner whose [resolve] removes its entry: the
    request that the runner of a continued session registers is resolved by
    the first matching response, and the second one finds nothing. *)
Lemma continued_session_request_is_resolved_once :
  let w := afterWith tidyRunner [ Client (SessionContinue "c1" "hello");
                                  SetPending 0 ask ] in
  pendingEntry w "c1" "t1" = Some ask
  ∧ (resolved <$> steps (responses "c1" "t1" [Allow JsNull; Deny "no"]) w)
    = Some [(resolve ask, Allow JsNull)].
Proof. cbv zeta. split; vm_compute; reflexivity. Qed.

(* ===================================================================== *)
(** ** Looking up a call *)
(* ===================================================================== *)

Lemma assignClosure_lookup rid c rs r :
  rs !! rid = Some r →
  assignClosure rid c rs !! rid
  = Some {| options := options r; closure := c; settled := settled r |}.
Proof.
  intros Hr. unfold assignClosure. rewrite Hr.
  apply list_lookup_insert_eq. by eapply lookup_lt_Some.
Qed.

Lemma settle_lookup rid rs r :
  rs !! rid = Some r →
  settle rid rs !! rid
  = Some {| options := options r; closure := closure r; settled := true |}.
Proof.
  intros Hr. unfold settle. rewrite Hr.
  apply list_lookup_insert_eq. by eapply lookup_lt_Some.
Qed.

Lemma step_update_eq rid r updates w :
  runs w !! rid = Some r →
  step (OnSessionUpdate rid updates) w
  = Some (exec (onSessionUpdate rid (closure r) updates) w).
Proof.
  intros Hr. cbn. rewrite Hr. cbn. f_equal. unfold exec, turn.
  destruct (closure r).
  - by rewrite onSessionUpdate_start_eq.
  - done.
Qed.

(* ===================================================================== *)
(** ** A start and its acknowledgement *)
(* ===================================================================== *)

Lemma steps_app ls1 ls2 w :
  steps (ls1 ++ ls2) w = steps ls1 w ≫= steps ls2.
Proof.
  revert w. induction ls1 as [|l ls1 IH]; intros w; cbn; [done|].
  destruct (step l w); cbn; [apply IH | done].
Qed.

Lemma emit_frame e w :
  runs (exec (emit e) w) = runs w
  ∧ broadcasts (exec (emit e) w) = broadcasts w ++ [e].
Proof.
  unfold exec. destruct e; try done.
  rewrite emit_status_eq. cbn. by destruct (sessions w !! sessionId).
Qed.

Lemma isRunningStatus_relabelTo c e :
  isRunningStatus (relabelTo c e) = isRunningStatus e.
Proof.
  unfold relabelTo. destruct c as [cid|]; [|done].
  destruct (truthy cid && hasSessionId e); [|done]. by destruct e.
Qed.

Lemma output_not_running rid c ls :
  forallb (ownLabel rid) ls = true →
  Forall (λ e, isRunningStatus e = false) (flat_map (output c) ls).
Proof.
  induction ls as [|l ls IH]; cbn [forallb flat_map]; [by constructor|].
  intros [Hl Hls]%andb_prop. apply Forall_app. split; [|by apply IH].
  destruct l as [|? [|v]|? e| | |]; cbn [output]; try (repeat constructor; fail).
  - destruct (String_ v); repeat constructor.
  - repeat constructor.
    cbn in Hl. apply andb_prop in Hl as [_ He%negb_true_iff].
    by rewrite isRunningStatus_relabelTo.
Qed.

Lemma no_running_for cid (log : list ServerEvent) :
  Forall (λ e, isRunningStatus e = false) log →
  filter (λ e, isRunningFor cid e = true) log = [].
Proof.
  induction 1 as [|e log He _ IH]; [done|].
  rewrite filter_cons_False; [done|].
  destruct e as [| |? []| | | | |]; cbn in *; congruence.
Qed.

Lemma step_settled_None rid r outcome w :
  runs w !! rid = Some r → settled r = true → step (Settle rid outcome) w = None.
Proof. intros Hr Hs. cbn. rewrite Hr. cbn. by rewrite Hs. Qed.

Lemma step_event_eq rid r e w :
  runs w !! rid = Some r →
  step (OnEvent rid e) w = Some (exec (emit (relabel (closure r) e)) w).
Proof.
  intros Hr. cbn. rewrite Hr. cbn. f_equal.
  by erewrite turn_normal by (rewrite onEvent_eq; apply emit_normal).
Qed.

Lemma step_set_pending_eq rid r p w :
  runs w !! rid = Some r →
  step (SetPending rid p) w
  = Some (with_heap (alter (insert (toolUseId p) p)
                       (rs_pendingPermissions (opt_session (options r)))) w).
Proof. intros Hr. cbn. by rewrite Hr. Qed.

Lemma step_delete_pending_eq rid r tid w :
  runs w !! rid = Some r →
  step (DeletePending rid tid) w
  = Some (with_heap (alter (delete tid)
                       (rs_pendingPermissions (opt_session (options r)))) w).
Proof. intros Hr. cbn. by rewrite Hr. Qed.

(** Labels of a started run, while no further acknowledgement can happen. *)
Lemma started_run_steps rid prompt cwd c ls :
  ∀ w w' r h,
    runs w !! rid = Some r →
    closure r = StartClosure prompt cwd c h →
    forallb (ownLabel rid) ls = true →
    truthy_opt c = true ∨ forallb (negb ∘ announces) ls = true →
    steps ls w = Some w' →
    broadcasts w' = broadcasts w ++ flat_map (output c) ls
    ∧ ∃ r' h', runs w' !! rid = Some r' ∧ closure r' = StartClosure prompt cwd c h'.
Proof.
  induction ls as [|l ls IH]; intros w w' r h Hr Hc Hown Hack.
  - cbn. intros [= <-]. rewrite app_nil_r. eauto.
  - cbn in Hown. apply andb_prop in Hown as [Hl Hls].
    assert (truthy_opt c = true ∨ forallb (negb ∘ announces) ls = true) as Hack'.
    { destruct Hack as [?|Hack]; [by left|]. cbn in Hack.
      apply andb_prop in Hack as [_ ?]. by right. }
    cbn [steps flat_map].
    destruct l as [event|rid' outcome|rid' e|rid' updates|rid' p|rid' tid];
      cbn in Hl; [done| | | | |].
    + apply bool_decide_eq_true in Hl as ->.
      destruct (settled r) eqn:Hs; [by rewrite (step_settled_None _ _ _ _ Hr Hs)|].
      rewrite (step_settle_eq _ _ _ _ Hr Hs), Hc. cbn [mbind option_bind].
      destruct outcome as [h1|v].
      * rewrite resume_resolved_turn. cbn [output]. intros Hsteps.
        eapply IH in Hsteps as [Hb Hrun];
          [|by apply assignClosure_lookup, settle_lookup|done..].
        split; [exact Hb | exact Hrun].
      * rewrite resume_rejected_turn. cbn [output]. intros Hsteps.
        destruct (afterFailure_frame (StartClosure prompt cwd c h) v
                    (with_runs (settle rid) w)) as (_ & Hruns & _).
        eapply IH in Hsteps as [Hb Hrun];
          [|rewrite Hruns; by apply settle_lookup|by rewrite Hc|done..].
        split; [|exact Hrun]. rewrite Hb. unfold afterFailure.
        destruct (String_ v); cbn; [by rewrite <- app_assoc | done].
    + apply andb_prop in Hl as [->%bool_decide_eq_true _].
      rewrite (step_event_eq _ _ _ _ Hr), Hc. cbn [mbind option_bind relabel output].
      destruct (emit_frame (relabelTo c e) w) as [Hruns Hb0].
      intros Hsteps.
      eapply IH in Hsteps as [Hb Hrun]; [|by rewrite Hruns|done..].
      split; [|exact Hrun]. rewrite Hb, Hb0. cbn. by rewrite <- app_assoc.
    + apply bool_decide_eq_true in Hl as ->.
      rewrite (step_update_eq _ _ _ _ Hr), Hc. cbn [mbind option_bind output].
      unfold exec. rewrite onSessionUpdate_start_eq. cbn [snd].
      assert (match lettaConversationId updates with
              | Some cid => if truthy cid && negb (truthy_opt c)
                            then acknowledged rid prompt cwd h cid w else w
              | None => w
              end = w) as ->.
      { destruct (lettaConversationId updates) as [cid|] eqn:Hu; [|done].
        destruct Hack as [->|Hack]; [by rewrite andb_false_r|].
        cbn in Hack. rewrite Hu in Hack. cbn in Hack.
        apply andb_prop in Hack as [->%negb_true_iff _]. done. }
      intros Hsteps. by eapply IH in Hsteps.
    + apply bool_decide_eq_true in Hl as ->.
      rewrite (step_set_pending_eq _ _ _ _ Hr). cbn [mbind option_bind output].
      intros Hsteps. by eapply IH in Hsteps.
    + apply bool_decide_eq_true in Hl as ->.
      rewrite (step_delete_pending_eq _ _ _ _ Hr). cbn [mbind option_bind output].
      intros Hsteps. by eapply IH in Hsteps.
Qed.

(** C4.  A [session.start] is handled and its runner then calls back:
    session updates, events that are not [running] status events of the
    runner's own, and the settlement of the call, in any order.  At the
    first session update that carries a conversation id the router
    broadcasts one [session.status] event with status [running] for that
    id, followed by the user prompt.  It is the only [running] status event
    broadcast for the id, whatever session updates follow, and everything
    the later callbacks make the router broadcast, stream messages included,
    comes after it. *)
Theorem start_announces_running_once
    (w w' : World) (title prompt : string) (cwd tools : option string)
    (before later : list Label) (updates : SessionUpdates) (cid : string) :
  let rid := length (runs w) in
  let running := SessionStatusEv cid Running (Some cid) cwd None in
  lettaConversationId updates = Some cid →
  truthy cid = true →
  forallb (ownLabel rid) (before ++ later) = true →
  forallb (negb ∘ announces) before = true →
  steps (Client (SessionStart title prompt cwd tools)
           :: before ++ OnSessionUpdate rid updates :: later) w = Some w' →
  broadcasts w'
    = broadcasts w ++ flat_map (output None) before
        ++ running :: StreamUserPrompt cid prompt
        :: flat_map (output (Some cid)) later
  ∧ length (filter (λ e, isRunningFor cid e = true)
              (drop (length (broadcasts w)) (broadcasts w'))) = 1.
Proof.
  intros rid running Hu Hcid Hown Hquiet.
  rewrite forallb_app in Hown. apply andb_prop in Hown as [Hown1 Hown2].
  cbn [steps step]. erewrite turn_normal by apply start_eq.
  cbn [mbind option_bind].
  set (w0 := with_runs _ _).
  assert (runs w0 !! rid = Some (startRun title prompt cwd (fresh (dom (heap w)))))
    as Hr0 by (subst w0 rid; cbn; by rewrite lookup_app_r, Nat.sub_diag).
  rewrite steps_app.
  destruct (steps before w0) as [wa|] eqn:Hbefore; [|done].
  cbn [mbind option_bind steps].
  eapply started_run_steps in Hbefore as (Hba & ra & ha & Hra & Hca);
    [|exact Hr0|reflexivity|exact Hown1|by right].
  rewrite (step_update_eq _ _ _ _ Hra), Hca. cbn [mbind option_bind].
  unfold exec. rewrite onSessionUpdate_start_eq, Hu, Hcid. cbn [snd andb negb truthy_opt].
  intros Hlater.
  eapply started_run_steps in Hlater as (Hbl & _);
    [|by apply assignClosure_lookup|reflexivity|exact Hown2|by left].
  assert (broadcasts w'
          = broadcasts w ++ flat_map (output None) before
              ++ running :: StreamUserPrompt cid prompt
              :: flat_map (output (Some cid)) later) as Hlog.
  { rewrite Hbl. cbn. rewrite Hba. subst w0. cbn.
    by rewrite <- !app_assoc. }
  split; [exact Hlog|].
  rewrite Hlog, drop_app_length, filter_app, filter_cons_True, filter_cons_False.
  - rewrite !(no_running_for cid) by (eapply output_not_running; eassumption).
    done.
  - done.
  - cbn. by rewrite bool_decide_eq_true.
Qed.

Lemma start_announces_running_once_witness :
  truthy "c1" = true
  ∧ forallb (ownLabel 0) (early ++ late) = true
  ∧ forallb (negb ∘ announces) early = true
  ∧ steps acknowledged_start initial = Some (after acknowledged_start)
  ∧ broadcasts (after acknowledged_start)
    = broadcasts initial ++ flat_map (output None) early
        ++ SessionStatusEv "c1" Running (Some "c1") (Some "/tmp") None
        :: StreamUserPrompt "c1" "hello"
        :: flat_map (output (Some "c1")) late
  ∧ length (filter (λ e, isRunningFor "c1" e = true)
              (drop (length (broadcasts initial))
                 (broadcasts (after acknowledged_start)))) = 1.
Proof.
  split; [reflexivity|]. split; [reflexivity|]. split; [reflexivity|].
  split; [vm_compute; reflexivity|].
  apply (start_announces_running_once initial (after acknowledged_start)
           "title" "hello" (Some "/tmp") None early late
           {| lettaConversationId := Some "c1" |} "c1").
  - reflexivity.
  - reflexivity.
  - reflexivity.
  - reflexivity.
  - vm_compute. reflexivity.
Defined.

(* ===================================================================== *)
(** ** The result card *)
(* ===================================================================== *)

(** C10, as the code has it.  A [result] message with [success = true]
    renders nothing.  One with [success = false] renders the error card,
    whose text is the message's error text when that is a non-empty string
    and [Unknown error] when the message has no error text or an empty
    one. *)
Theorem result_message_card
    (success : bool) (error : option string) (isLast isRunning : bool)
    (permissionRequest : option PermissionRequest) (onPermissionResult : option nat) :
  let card := MessageCard (SDKResult success error) isLast isRunning
                permissionRequest onPermissionResult in
  (success = true → card = None)
  ∧ (success = false → ∀ text, error = Some text → text ≠ "" →
       card = Some (errorCard text) ∧ texts (errorCard text) = ["Error"; text])
  ∧ (success = false → error = None ∨ error = Some "" →
       card = Some (errorCard "Unknown error")).
Proof.
  cbv zeta. split; [|split].
  - by intros ->.
  - intros -> text -> Htext. split; [|done]. cbn. unfold truthy.
    by rewrite bool_decide_eq_false_2.
  - by intros -> [-> | ->].
Qed.

Lemma result_message_card_witness :
  MessageCard (SDKResult true None) true true None None = None
  ∧ MessageCard (SDKResult false (Some "rate limited")) true true None None
    = Some (errorCard "rate limited")
  ∧ MessageCard (SDKResult false None) true true None None
    = Some (errorCard "Unknown error").
Proof.
  pose proof (result_message_card true None true true None None) as (H1 & _ & _).
  pose proof (result_message_card false (Some "rate limited") true true None None)
    as (_ & H2 & _).
  pose proof (result_message_card false None true true None None) as (_ & _ & H3).
  split; [by apply H1|]. split.
  - by apply (H2 eq_refl "rate limited" eq_refl).
  - apply H3; [reflexivity | by left].
Defined.

(** The claim of C10 that a failed result shows the message's error text
    fails for an error text that is present and empty: the card then shows
    [Unknown error], not the message's text. *)
Lemma empty_error_text_is_replaced :
  MessageCard (SDKResult false (Some "")) false false None None
    = Some (errorCard "Unknown error")
  ∧ MessageCard (SDKResult false (Some "")) false false None None
    ≠ Some (errorCard "").
Proof. split; [reflexivity | discriminate]. Qed.

(* ===================================================================== *)
(** ** Lines of a tool result *)
(* ===================================================================== *)

Lemma append_cons x (a b : string) : String x a +:+ b = String x (a +:+ b).
Proof. done. Qed.

Lemma append_nil_l (b : string) : "" +:+ b = b.
Proof. done. Qed.

Lemma append_assoc (a b c : string) : (a +:+ b) +:+ c = a +:+ (b +:+ c).
Proof. induction a as [|x a IH]; [done|]. by rewrite !append_cons, IH. Qed.

Lemma append_nil_r (a : string) : a +:+ "" = a.
Proof. induction a as [|x a IH]; [done|]. by rewrite append_cons, IH. Qed.

Lemma splitLines_nonempty s : splitLines s ≠ [].
Proof.
  destruct s as [|c s]; cbn; [done|].
  destruct (Ascii.eqb c LF); [done|]. by destruct (splitLines s).
Qed.

Lemma join_cons sep line (rest : list string) :
  rest ≠ [] → join sep (line :: rest) = line +:+ sep +:+ join sep rest.
Proof. by destruct rest. Qed.

Lemma join_splitLines s : join newline (splitLines s) = s.
Proof.
  induction s as [|c s IH]; [done|]. cbn [splitLines].
  destruct (Ascii.eqb c LF) eqn:Hc.
  - apply Ascii.eqb_eq in Hc as ->.
    rewrite join_cons by apply splitLines_nonempty. by rewrite IH.
  - pose proof (splitLines_nonempty s) as Hne.
    destruct (splitLines s) as [|line rest]; [done|].
    destruct rest as [|line' rest].
    + cbn in *. by rewrite IH.
    + rewrite join_cons in IH by done. rewrite join_cons by done.
      by rewrite <- IH.
Qed.

Lemma join_app sep (l1 l2 : list string) :
  l1 ≠ [] → l2 ≠ [] →
  join sep (l1 ++ l2) = join sep l1 +:+ sep +:+ join sep l2.
Proof.
  intros H1 H2. induction l1 as [|x l1 IH]; [done|].
  destruct l1 as [|y l1].
  - cbn [app]. by rewrite join_cons.
  - rewrite <- app_comm_cons, join_cons by done.
    rewrite IH by done. rewrite (join_cons _ x) by done.
    by rewrite !append_assoc.
Qed.

(** X1.  A tool result that is not an error is cut into lines at the line
    feeds, and joining the lines gives the content back.  So the card shows
    exactly the content when there are at most three lines or the card is
    expanded; and when there are more and it is collapsed, it shows the
    first three lines: the content is what is shown, a line feed, and the
    hidden lines, of which there is at least one. *)
Theorem tool_result_shows_content (content : string) (isExpanded : bool) :
  let v := toolResultView content false isExpanded in
  join newline (lines v) = content
  ∧ (hasMoreLines v = false ∨ isExpanded = true → visibleContent v = content)
  ∧ (hasMoreLines v = true → isExpanded = false →
       content
       = visibleContent v +:+ newline
           +:+ join newline (drop MAX_VISIBLE_LINES (lines v))
       ∧ length (take MAX_VISIBLE_LINES (lines v)) = MAX_VISIBLE_LINES
       ∧ hiddenLines v = length (drop MAX_VISIBLE_LINES (lines v))
       ∧ 0 < hiddenLines v).
Proof.
  cbv zeta. unfold toolResultView. cbn [lines hasMoreLines visibleContent hiddenLines].
  split; [apply join_splitLines|]. split.
  - intros [-> | ->]; cbn [andb negb]; [apply join_splitLines|].
    rewrite andb_false_r. apply join_splitLines.
  - intros Hmore ->. rewrite Hmore. cbn [andb negb].
    apply bool_decide_eq_true in Hmore.
    rewrite length_drop, length_take.
    split; [|unfold MAX_VISIBLE_LINES in *; lia].
    rewrite <- (join_splitLines content) at 1.
    rewrite <- (take_drop MAX_VISIBLE_LINES (splitLines content)) at 1.
    apply join_app.
    + intros Hnil. apply (f_equal length) in Hnil.
      rewrite length_take in Hnil. change (length (@nil string)) with 0 in Hnil.
      unfold MAX_VISIBLE_LINES in *. lia.
    + intros Hnil. apply (f_equal length) in Hnil.
      rewrite length_drop in Hnil. change (length (@nil string)) with 0 in Hnil.
      unfold MAX_VISIBLE_LINES in *. lia.
Qed.

Lemma tool_result_shows_content_witness :
  let content := "a" +:+ newline +:+ "b" +:+ newline +:+ "c" +:+ newline +:+ "d"
                   +:+ newline +:+ "e" in
  let v := toolResultView content false false in
  hasMoreLines v = true
  ∧ content
    = visibleContent v +:+ newline
        +:+ join newline (drop MAX_VISIBLE_LINES (lines v))
  ∧ hiddenLines v = 2.
Proof.
  cbv zeta.
  destruct (tool_result_shows_content
              ("a" +:+ newline +:+ "b" +:+ newline +:+ "c" +:+ newline +:+ "d"
                 +:+ newline +:+ "e") false) as (_ & _ & H).
  destruct (H eq_refl eq_refl) as (Hc & _ & Hh & _).
  split; [reflexivity|]. split; [exact Hc|]. reflexivity.
Defined.

(* ===================================================================== *)
(** ** Searching a string *)
(* ===================================================================== *)

Lemma prefix_append (p rest : string) : String.prefix p (p +:+ rest) = true.
Proof.
  induction p as [|x p IH]; [by destruct rest|].
  rewrite append_cons. cbn. by destruct (ascii_dec x x).
Qed.

Lemma prefix_extend (p a b : string) :
  String.prefix p a = true → String.prefix p (a +:+ b) = true.
Proof.
  revert a. induction p as [|x p IH]; intros a; [by destruct (a +:+ b)|].
  destruct a as [|y a]; [done|]. rewrite append_cons. cbn.
  destruct (ascii_dec x y); [apply IH | done].
Qed.

Lemma prefix_head_ne c p x rest :
  x ≠ c → String.prefix (String c p) (String x rest) = false.
Proof. intros Hne. cbn. by destruct (ascii_dec c x) as [->|]. Qed.

Lemma find_after_lacking c p (before rest : string) :
  lacks c before →
  find (String c p) (before +:+ String c p +:+ rest) = Some (String.length before).
Proof.
  induction before as [|x before IH]; intros Hl.
  - rewrite append_nil_l. change (String c p +:+ rest) with (String c (p +:+ rest)).
    assert (String.prefix (String c p) (String c (p +:+ rest)) = true) as Hp
      by apply (prefix_append (String c p)).
    cbn [find]. by rewrite Hp.
  - destruct Hl as [Hx Hl]. rewrite append_cons. cbn [find].
    rewrite prefix_head_ne by done. rewrite IH by done. done.
Qed.

Lemma find_lacking c p (s : string) : lacks c s → find (String c p) s = None.
Proof.
  induction s as [|x s IH]; intros Hl; [done|].
  destruct Hl as [Hx Hl]. cbn [find].
  rewrite prefix_head_ne by done. by rewrite IH.
Qed.

Lemma dropString_app (a b : string) : dropString (String.length a) (a +:+ b) = b.
Proof. induction a as [|x a IH]; [by destruct b|]. by rewrite append_cons. Qed.

Lemma dropString_add n m (s : string) :
  dropString (n + m) s = dropString m (dropString n s).
Proof.
  revert s. induction n as [|n IH]; intros s; [done|].
  destruct s as [|x s]; cbn; [by destruct m | apply IH].
Qed.

Lemma takeString_app (a b : string) : takeString (String.length a) (a +:+ b) = a.
Proof.
  induction a as [|x a IH]; [by destruct b|].
  rewrite append_cons. cbn. by rewrite IH.
Qed.

(** X2.  For a tag made of letters, digits and underscores,
    [extractTagContent] gives the body of the first element with the tag:
    when neither the text before the opening tag nor the body has a [<], it
    returns exactly the body, whatever follows the closing tag; and for an
    input without any [<] it returns [null]. *)
Theorem extractTagContent_body (tag before body rest : string) :
  isWordTag tag = true → lacks "<" before → lacks "<" body →
  extractTagContent
    (before +:+ ("<" +:+ tag +:+ ">") +:+ body +:+ ("</" +:+ tag +:+ ">") +:+ rest) tag
  = Some body
  ∧ extractTagContent before tag = None.
Proof.
  intros _ Hb Hbody. unfold extractTagContent. split.
  - change ("<" +:+ tag +:+ ">") with (String "<" (tag +:+ ">")).
    change ("</" +:+ tag +:+ ">") with (String "<" (String "/" (tag +:+ ">"))).
    rewrite find_after_lacking by done.
    rewrite dropString_add, !dropString_app.
    rewrite find_after_lacking by done.
    by rewrite takeString_app.
  - change ("<" +:+ tag +:+ ">") with (String "<" (tag +:+ ">")).
    by rewrite find_lacking.
Qed.

Lemma extractTagContent_body_witness :
  extractTagContent
    ("Error: " +:+ ("<" +:+ "tool_use_error" +:+ ">") +:+ "file not found"
       +:+ ("</" +:+ "tool_use_error" +:+ ">") +:+ " (1 < 2)") "tool_use_error"
  = Some "file not found"
  ∧ extractTagContent "Error: " "tool_use_error" = None.
Proof.
  apply (extractTagContent_body "tool_use_error" "Error: " "file not found" " (1 < 2)").
  - reflexivity.
  - cbn. repeat split; discriminate.
  - cbn. repeat split; discriminate.
Defined.

(** X3.  A tool result that is an error is one line, however many line
    feeds it has: it is never cut and there is no expand button.  The line
    is the non-empty body of the [tool_use_error] element when the content
    has one, and the whole content otherwise. *)
Theorem tool_error_is_one_line (content : string) (isExpanded : bool) :
  let v := toolResultView content true isExpanded in
  lines v = [visibleContent v]
  ∧ hasMoreLines v = false
  ∧ match extractTagContent content "tool_use_error" with
    | Some body => visibleContent v = if decide (body = "") then content else body
    | None => visibleContent v = content
    end.
Proof.
  cbv zeta. unfold toolResultView. cbn [lines hasMoreLines visibleContent length].
  assert (bool_decide (MAX_VISIBLE_LINES < 1) = false) as ->
    by (apply bool_decide_eq_false_2; unfold MAX_VISIBLE_LINES; lia).
  cbn [andb]. split; [done|]. split; [done|].
  destruct (extractTagContent content "tool_use_error") as [body|]; [|done].
  unfold join, String.concat, or_string, truthy.
  destruct (decide (body = "")) as [->|Hne].
  - by rewrite bool_decide_eq_true_2.
  - by rewrite bool_decide_eq_false_2.
Qed.

(* ===================================================================== *)
(** ** Detecting markdown *)
(* ===================================================================== *)

Lemma lacks_app c (a b : string) : lacks c a → lacks c b → lacks c (a +:+ b).
Proof.
  induction a as [|x a IH]; [done|]. intros [Hx Ha] Hb.
  rewrite append_cons. split; [done | by apply IH].
Qed.

Lemma headingHere_lacking (s : string) : lacks "#" s → headingHere s = false.
Proof.
  destruct s as [|x s]; [done|]. intros [Hx _]. unfold headingHere. cbn.
  by destruct (Ascii.eqb_spec x "#").
Qed.

Lemma hasHeading_lacking b (s : string) : lacks "#" s → hasHeading b s = false.
Proof.
  revert b. induction s as [|x s IH]; intros b Hl.
  - cbn. by rewrite andb_false_r.
  - cbn [hasHeading]. rewrite headingHere_lacking by done.
    destruct Hl as [_ Hl]. rewrite IH by done. by rewrite andb_false_r.
Qed.

Lemma hasFencedBlock_lacking (s : string) : lacks "`" s → hasFencedBlock s = false.
Proof.
  induction s as [|x s IH]; [done|]. intros [Hx Hl].
  cbn [hasFencedBlock]. unfold fence. rewrite prefix_head_ne by done.
  by rewrite IH.
Qed.

Lemma leadingHashes_hashes n c (rest : string) :
  c ≠ "#"%char → leadingHashes (hashes n +:+ String c rest) = (n, String c rest).
Proof.
  intros Hc. induction n as [|n IH].
  - cbn [hashes]. rewrite append_nil_l. cbn [leadingHashes].
    by destruct (Ascii.eqb_spec c "#").
  - cbn [hashes]. rewrite append_cons. cbn [leadingHashes].
    by rewrite Ascii.eqb_refl, IH.
Qed.

Lemma hasHeading_inside_hashes n (rest : string) :
  lacks "#" rest → hasHeading false (hashes n +:+ rest) = false.
Proof.
  intros Hl. induction n as [|n IH]; [by apply hasHeading_lacking|].
  cbn [hashes]. rewrite append_cons. cbn [hasHeading andb orb]. exact IH.
Qed.

(** X4.  Text with neither [#] nor a backquote is never markdown.  A text
    made of [n] hashes, one white-space character and then such plain text
    is markdown exactly when [n] is between 1 and 6: seven hashes or more do
    not make a heading. *)
Theorem isMarkdown_plain_and_headings (n : nat) (c : ascii) (plain : string) :
  lacks "#" plain → lacks "`" plain →
  isWhiteSpace c = true →
  isMarkdown plain = false
  ∧ isMarkdown (hashes n +:+ String c plain) = bool_decide (1 ≤ n ≤ 6).
Proof.
  intros Hh Hq Hc. split.
  - unfold isMarkdown. destruct (negb (truthy plain)); [done|].
    by rewrite hasHeading_lacking, hasFencedBlock_lacking.
  - assert (c ≠ "#"%char) as Hne by (intros ->; discriminate Hc).
    assert (c ≠ "`"%char) as Hnq by (intros ->; discriminate Hc).
    assert (lacks "#" (String c plain)) as Hh' by done.
    destruct n as [|n].
    + cbn [hashes]. rewrite append_nil_l. unfold isMarkdown.
      destruct (negb (truthy (String c plain))); [done|].
      rewrite hasHeading_lacking, hasFencedBlock_lacking by done. done.
    + unfold isMarkdown.
      assert (truthy (hashes (S n) +:+ String c plain) = true) as -> by done.
      cbn [negb].
      rewrite hasFencedBlock_lacking.
      2:{ apply lacks_app; [|done]. clear. induction (S n); [done|]. by split. }
      rewrite orb_false_r.
      change (hashes (S n) +:+ String c plain)
        with (String "#" (hashes n +:+ String c plain)).
      cbn [hasHeading andb].
      change (String "#" (hashes n +:+ String c plain))
        with (hashes (S n) +:+ String c plain).
      unfold headingHere. rewrite leadingHashes_hashes by done. rewrite Hc.
      rewrite andb_true_r.
      change (isLineTerminator "#") with false.
      by rewrite hasHeading_inside_hashes, orb_false_r.
Qed.

Lemma isMarkdown_plain_and_headings_witness :
  isMarkdown "exit code 1" = false
  ∧ isMarkdown (hashes 7 +:+ String " " "exit code 1") = bool_decide (1 ≤ 7 ≤ 6).
Proof.
  apply (isMarkdown_plain_and_headings 7 " " "exit code 1").
  - cbn. repeat split; discriminate.
  - cbn. repeat split; discriminate.
  - reflexivity.
Defined.

Lemma leadingHashes_extend (a b : string) n c after :
  leadingHashes a = (n, String c after) →
  leadingHashes (a +:+ b) = (n, String c after +:+ b).
Proof.
  revert n. induction a as [|x a IH]; intros n; [done|].
  rewrite append_cons. cbn [leadingHashes].
  destruct (Ascii.eqb x "#").
  - destruct (leadingHashes a) as [m after'] eqn:Ha.
    intros [= <- ->]. by rewrite (IH m eq_refl).
  - intros [= <- <- <-]. done.
Qed.

Lemma headingHere_extend (a b : string) :
  headingHere a = true → headingHere (a +:+ b) = true.
Proof.
  unfold headingHere. destruct (leadingHashes a) as [n after] eqn:Ha.
  destruct after as [|c after]; [by rewrite andb_false_r|].
  by rewrite (leadingHashes_extend _ b _ _ _ Ha).
Qed.

Lemma hasHeading_extend start (a b : string) :
  hasHeading start a = true → hasHeading start (a +:+ b) = true.
Proof.
  revert start. induction a as [|x a IH]; intros start.
  - cbn. by rewrite andb_false_r.
  - rewrite append_cons. cbn [hasHeading].
    intros [[-> H]%andb_prop | H]%orb_prop.
    + change (String x (a +:+ b)) with (String x a +:+ b).
      by rewrite headingHere_extend.
    + rewrite (IH _ H). by rewrite orb_true_r.
Qed.

Lemma contains_extend p (a b : string) :
  contains p a = true → contains p (a +:+ b) = true.
Proof.
  induction a as [|x a IH].
  - cbn [contains]. rewrite orb_false_r. intros Hp.
    destruct p; [|done]. by destruct b.
  - rewrite append_cons. cbn [contains].
    intros [H | H]%orb_prop.
    + change (String x (a +:+ b)) with (String x a +:+ b).
      by rewrite prefix_extend.
    + rewrite (IH H). by rewrite orb_true_r.
Qed.

Lemma dropString_extend n (a b : string) :
  n ≤ String.length a → dropString n (a +:+ b) = dropString n a +:+ b.
Proof.
  revert a. induction n as [|n IH]; intros a Hn; [done|].
  destruct a as [|x a]; cbn in Hn; [lia|].
  rewrite append_cons. cbn. apply IH. lia.
Qed.

Lemma prefix_length (p a : string) :
  String.prefix p a = true → String.length p ≤ String.length a.
Proof.
  revert a. induction p as [|x p IH]; intros a; [cbn; lia|].
  destruct a as [|y a]; cbn; [done|]. destruct (ascii_dec x y); [|done].
  intros H%IH. lia.
Qed.

Lemma hasFencedBlock_extend (a b : string) :
  hasFencedBlock a = true → hasFencedBlock (a +:+ b) = true.
Proof.
  induction a as [|x a IH]; [done|].
  rewrite append_cons. cbn [hasFencedBlock].
  intros [[Hp Hc]%andb_prop | H]%orb_prop.
  - change (String x (a +:+ b)) with (String x a +:+ b).
    rewrite prefix_extend by done.
    rewrite dropString_extend by (by apply prefix_length in Hp).
    by rewrite contains_extend.
  - rewrite (IH H). by rewrite orb_true_r.
Qed.

(** X5.  Markdown stays markdown when text is added after it: if
    [isMarkdown] accepts a text, it accepts the text followed by anything. *)
Theorem isMarkdown_append (text more : string) :
  isMarkdown text = true → isMarkdown (text +:+ more) = true.
Proof.
  unfold isMarkdown. destruct text as [|x text]; [done|].
  rewrite append_cons.
  change (negb (truthy (String x text))) with false.
  change (negb (truthy (String x (text +:+ more)))) with false.
  cbv iota. change (String x (text +:+ more)) with (String x text +:+ more).
  intros [H | H]%orb_prop.
  - by rewrite hasHeading_extend.
  - rewrite hasFencedBlock_extend by done. by rewrite orb_true_r.
Qed.

Lemma isMarkdown_append_witness :
  isMarkdown ("# Title" +:+ newline +:+ "and the rest") = true.
Proof. apply (isMarkdown_append "# Title"). reflexivity. Defined.

(* ===================================================================== *)
(** ** Tool status *)
(* ===================================================================== *)

Lemma toolCallEffect_keeps c id st (store : ToolStore) :
  toolStatusMap store !! id = Some st →
  toolStatusMap (toolCallEffect c store) !! id = Some st.
Proof.
  intros Hid. unfold toolCallEffect, setToolStatus.
  destruct (truthy_opt c) eqn:Hc; cbn [andb negb]; [|done].
  destruct (bool_decide (is_Some (toolStatusMap store !! default "" c))) eqn:Hhas;
    cbn [negb]; [done|].
  cbn. apply bool_decide_eq_false in Hhas.
  rewrite lookup_insert_ne; [done|]. intros Heq. apply Hhas. rewrite Heq. eauto.
Qed.

(** X6.  Once the result of a tool call has been rendered, its status is
    [success] or [error] for good: rendering any tool calls afterwards, the
    same one included, never puts it back to [pending].  Its card is then
    not pending, shows its dot, and the dot is the error one exactly for an
    error result. *)
Theorem tool_result_status_is_final
    (store : ToolStore) (id : string) (isError : bool) (later : list (option string)) :
  truthy id = true →
  let final := foldl (λ st c, toolCallEffect c st)
                 (toolResultEffect (Some id) isError store) later in
  let toolStatus := toolStatusOf (Some id) final in
  toolStatus = Some (if isError then ToolError else ToolSuccess)
  ∧ isPending toolStatus = false
  ∧ shouldShowDot toolStatus false = true
  ∧ statusVariant toolStatus = (if isError then Failure else Success).
Proof.
  intros Hid. cbv zeta.
  assert (toolStatusOf (Some id)
            (foldl (λ st c, toolCallEffect c st)
               (toolResultEffect (Some id) isError store) later)
          = Some (if isError then ToolError else ToolSuccess)) as ->.
  { unfold toolStatusOf. cbn [truthy_opt default]. rewrite Hid.
    assert (toolStatusMap (toolResultEffect (Some id) isError store) !! id
            = Some (if isError then ToolError else ToolSuccess)) as H0.
    { unfold toolResultEffect, setToolStatus. cbn [truthy_opt]. rewrite Hid.
      cbn. apply lookup_insert_eq. }
    revert H0. generalize (toolResultEffect (Some id) isError store).
    induction later as [|c later IH]; intros st H0; [done|].
    cbn [foldl]. apply IH. by apply toolCallEffect_keeps. }
  by destruct isError.
Qed.

Lemma tool_result_status_is_final_witness :
  let empty := {| toolStatusMap := ∅; toolStatusListeners := [1; 2]; notified := [] |} in
  let final := foldl (λ st c, toolCallEffect c st)
                 (toolResultEffect (Some "call-1") true empty)
                 [Some "call-1"; Some "call-2"; None] in
  truthy "call-1" = true
  ∧ toolStatusOf (Some "call-1") final = Some ToolError
  ∧ isPending (toolStatusOf (Some "call-1") final) = false.
Proof.
  cbv zeta. split; [reflexivity|].
  destruct (tool_result_status_is_final
              {| toolStatusMap := ∅; toolStatusListeners := [1; 2]; notified := [] |}
              "call-1" true [Some "call-1"; Some "call-2"; None] eq_refl)
    as (H1 & H2 & _).
  split; [exact H1 | exact H2].
Defined.

(** X7.  A tool call is announced as pending at most once: the effect of
    its card sets [pending] and calls every listener once when the call has
    no status yet, and does nothing after that, nor when the message has no
    tool-call id or an empty one. *)
Theorem tool_call_pending_once (store : ToolStore) (toolCallId : option string) :
  toolCallEffect toolCallId (toolCallEffect toolCallId store)
  = toolCallEffect toolCallId store
  ∧ (truthy_opt toolCallId = false → toolCallEffect toolCallId store = store)
  ∧ (∀ id, toolCallId = Some id → truthy id = true →
       toolStatusMap store !! id = None →
       toolStatusMap (toolCallEffect toolCallId store)
       = <[id := ToolPending]> (toolStatusMap store)
       ∧ notified (toolCallEffect toolCallId store)
         = notified store ++ toolStatusListeners store)
  ∧ (∀ id, toolCallId = Some id →
       is_Some (toolStatusMap store !! id) →
       toolCallEffect toolCallId store = store).
Proof.
  split; [|split; [|split]].
  - destruct (truthy_opt toolCallId
                && negb (bool_decide
                           (is_Some (toolStatusMap store !! default "" toolCallId))))
      eqn:Hcond.
    + assert (toolCallEffect toolCallId store
              = setToolStatus toolCallId ToolPending store) as ->
        by (unfold toolCallEffect; by rewrite Hcond).
      apply andb_prop in Hcond as [Hc _].
      unfold toolCallEffect, setToolStatus. rewrite Hc.
      cbn [negb toolStatusMap]. rewrite lookup_insert_eq.
      rewrite bool_decide_eq_true_2 by eauto. done.
    + assert (toolCallEffect toolCallId store = store) as ->
        by (unfold toolCallEffect; by rewrite Hcond).
      unfold toolCallEffect. by rewrite Hcond.
  - intros Hc. unfold toolCallEffect. by rewrite Hc.
  - intros id -> Hid Hnone. unfold toolCallEffect, setToolStatus.
    cbn [truthy_opt default from_option Datatypes.id]. rewrite Hid, Hnone.
    rewrite bool_decide_eq_false_2 by (by intros [? ?]). done.
  - intros id -> Hsome. unfold toolCallEffect. cbn [default from_option Datatypes.id].
    rewrite bool_decide_eq_true_2 by done. by rewrite andb_false_r.
Qed.

Lemma tool_call_pending_once_witness :
  let store := {| toolStatusMap := ∅; toolStatusListeners := [1; 2]; notified := [] |} in
  truthy_opt (Some "") = false
  ∧ toolCallEffect (Some "") store = store
  ∧ notified (toolCallEffect (Some "call-1") store) = [1; 2].
Proof.
  cbv zeta. split; [reflexivity|].
  pose proof (tool_call_pending_once
                {| toolStatusMap := ∅; toolStatusListeners := [1; 2]; notified := [] |}
                (Some "")) as (_ & H & _).
  pose proof (tool_call_pending_once
                {| toolStatusMap := ∅; toolStatusListeners := [1; 2]; notified := [] |}
                (Some "call-1")) as (_ & _ & H' & _).
  split; [by apply H|].
  by destruct (H' "call-1" eq_refl eq_refl eq_refl) as [_ ->].
Defined.

(* ===================================================================== *)
(** ** The signature of a question request *)
(* ===================================================================== *)

Lemma append_not_empty (a b : string) c : a +:+ String c b ≠ "".
Proof. by destruct a. Qed.

Lemma questionSignature_not_empty q : questionSignature q ≠ "".
Proof. unfold questionSignature. apply append_not_empty. Qed.

(** X8.  The signature is the empty string exactly for an input that is
    missing, has no [questions] or has an empty [questions] array; an input
    with a question never has the empty signature. *)
Theorem signature_empty_iff (input : option AskUserQuestionInput) :
  getAskUserQuestionSignature input = ""
  ↔ input ≫= questions = None ∨ input ≫= questions = Some [].
Proof.
  unfold getAskUserQuestionSignature. split.
  - destruct (input ≫= questions) as [[|q qs]|]; [by right| |by left].
    intros H. exfalso. revert H. cbn [fmap list_fmap].
    destruct qs as [|q' qs].
    + apply questionSignature_not_empty.
    + rewrite join_cons by done. unfold questionSignature.
      rewrite !append_assoc. apply append_not_empty.
  - by intros [-> | ->].
Qed.

Lemma signature_empty_iff_witness :
  getAskUserQuestionSignature (Some {| questions := Some [] |}) = ""
  ∧ getAskUserQuestionSignature None = "".
Proof.
  split.
  - apply (signature_empty_iff (Some {| questions := Some [] |})). by right.
  - apply (signature_empty_iff None). by left.
Defined.

(** X9.  The signature does not escape its separator: a question [a] with
    header [b|c] and a question [a|b] with header [c] have the same
    signature when their other fields agree, and so do the inputs made of
    them. *)
Theorem signature_separator_collision
    (a b c : string) (os : option (list QuestionOption)) (m : option bool)
    (rest : list Question) :
  let q1 := {| question := a; header := Some (b +:+ "|" +:+ c);
               questionOptions := os; multiSelect := m |} in
  let q2 := {| question := a +:+ "|" +:+ b; header := Some c;
               questionOptions := os; multiSelect := m |} in
  q1 ≠ q2
  ∧ getAskUserQuestionSignature (Some {| questions := Some (q1 :: rest) |})
    = getAskUserQuestionSignature (Some {| questions := Some (q2 :: rest) |}).
Proof.
  cbv zeta. split.
  - intros [= Ha _]. revert Ha. clear. induction a as [|x a IH]; [done|].
    rewrite append_cons. intros [= Ha]. by apply IH.
  - unfold getAskUserQuestionSignature. cbn [mbind option_bind questions fmap list_fmap].
    assert (∀ q1 q2, questionSignature q1 = questionSignature q2 →
              join "||" (questionSignature q1 :: (questionSignature <$> rest))
              = join "||" (questionSignature q2 :: (questionSignature <$> rest)))
      as Hjoin by (by intros ?? ->).
    apply Hjoin. unfold questionSignature.
    cbn [question header questionOptions multiSelect default from_option Datatypes.id].
    by rewrite !append_assoc.
Qed.

(* ===================================================================== *)
(** ** Invariants of the table, the maps and the calls *)
(* ===================================================================== *)

Lemma runsRefine_refl rs : runsRefine rs rs.
Proof. intros rid r Hr. eauto. Qed.

Lemma runsRefine_assign rid c rs :
  (∀ r, rs !! rid = Some r → isStart c = true → isStart (closure r) = true) →
  runsRefine rs (assignClosure rid c rs).
Proof.
  intros Hc rid' r'. unfold assignClosure.
  destruct (rs !! rid) as [r|] eqn:Hr; [|eauto].
  destruct (decide (rid' = rid)) as [->|Hne].
  - rewrite list_lookup_insert_eq by (by eapply lookup_lt_Some).
    intros [= <-]. exists r. eauto.
  - rewrite list_lookup_insert_ne by done. eauto.
Qed.

Lemma runsRefine_settle rid rs : runsRefine rs (settle rid rs).
Proof.
  intros rid' r'. unfold settle.
  destruct (rs !! rid) as [r|] eqn:Hr; [|eauto].
  destruct (decide (rid' = rid)) as [->|Hne].
  - rewrite list_lookup_insert_eq by (by eapply lookup_lt_Some).
    intros [= <-]. exists r. eauto.
  - rewrite list_lookup_insert_ne by done. eauto.
Qed.

Lemma runsRefine_trans rs1 rs2 rs3 :
  runsRefine rs1 rs2 → runsRefine rs2 rs3 → runsRefine rs1 rs3.
Proof.
  intros H12 H23 rid r3 Hr3.
  destruct (H23 _ _ Hr3) as (r2 & Hr2 & Ho2 & Hs2).
  destruct (H12 _ _ Hr2) as (r1 & Hr1 & Ho1 & Hs1).
  exists r1. split; [done|]. split; [congruence | eauto].
Qed.

(** The world changes in ways that keep it well formed. *)
Lemma wf_same w w' :
  wellFormed w →
  sessions w' = sessions w → dom (heap w') = dom (heap w) →
  runsRefine (runs w) (runs w') →
  wellFormed w'.
Proof.
  intros [Ht Hr Hs Hst] Hses Hdom Href. split.
  - intros k s. rewrite Hses, Hdom. apply Ht.
  - intros rid r' Hr'. destruct (Href _ _ Hr') as (r & Hr0 & Ho & _).
    rewrite Hdom. unfold runMap. rewrite Ho. by eapply Hr.
  - intros k1 k2 s1 s2. rewrite Hses. apply Hs.
  - intros rid r' k s Hr' Hstart. rewrite Hses. intros Hk.
    destruct (Href _ _ Hr') as (r & Hr0 & Ho & Hst0).
    unfold runMap. rewrite Ho. eapply Hst; eauto.
Qed.

Lemma wf_status w w' cid s st :
  wellFormed w → sessions w !! cid = Some s →
  sessions w' = <[cid := {| conversationId := conversationId s; status := st;
                            pendingPermissions := pendingPermissions s |}]> (sessions w) →
  dom (heap w') = dom (heap w) → runs w' = runs w →
  wellFormed w'.
Proof.
  intros [Ht Hr Hs Hst] Hcid Hses Hdom Hruns.
  assert (∀ k s', sessions w' !! k = Some s' →
            ∃ s0, sessions w !! k = Some s0
                  ∧ conversationId s' = conversationId s0
                  ∧ pendingPermissions s' = pendingPermissions s0) as Hold.
  { intros k s'. rewrite Hses. destruct (decide (cid = k)) as [<-|Hne].
    - rewrite lookup_insert_eq. intros [= <-]. eauto.
    - rewrite lookup_insert_ne by done. eauto. }
  split.
  - intros k s' Hk. destruct (Hold _ _ Hk) as (s0 & H0 & -> & ->).
    rewrite Hdom. by apply Ht.
  - intros rid r. rewrite Hruns, Hdom. apply Hr.
  - intros k1 k2 s1 s2 Hne H1 H2.
    destruct (Hold _ _ H1) as (s01 & H01 & _ & ->).
    destruct (Hold _ _ H2) as (s02 & H02 & _ & ->).
    by eapply Hs.
  - intros rid r k s' Hrid Hstart Hk. rewrite Hruns in Hrid.
    destruct (Hold _ _ Hk) as (s0 & H0 & _ & ->). by eapply Hst.
Qed.

Lemma wf_create w w' cid st :
  wellFormed w →
  let l := fresh (dom (heap w)) in
  heap w' = <[l := ∅]> (heap w) →
  sessions w'
    = <[cid := {| conversationId := cid; status := st; pendingPermissions := l |}]>
        (sessions w) →
  runsRefine (runs w) (runs w') →
  wellFormed w'.
Proof.
  intros [Ht Hr Hs Hst] l Hheap Hses Href.
  assert (l ∉ dom (heap w)) as Hfresh by apply is_fresh.
  assert (dom (heap w') = {[l]} ∪ dom (heap w)) as Hdom
    by (rewrite Hheap; apply dom_insert_L).
  split.
  - intros k s. rewrite Hses, Hdom. destruct (decide (cid = k)) as [<-|Hne].
    + rewrite lookup_insert_eq. intros [= <-]. cbn. split; [done | set_solver].
    + rewrite lookup_insert_ne by done. intros Hk.
      destruct (Ht _ _ Hk). split; [done | set_solver].
  - intros rid r' Hr'. destruct (Href _ _ Hr') as (r & Hr0 & Ho & _).
    rewrite Hdom. unfold runMap. rewrite Ho.
    pose proof (Hr _ _ Hr0). unfold runMap in *. set_solver.
  - intros k1 k2 s1 s2 Hne. rewrite Hses.
    destruct (decide (cid = k1)) as [<-|Hne1];
      destruct (decide (cid = k2)) as [<-|Hne2]; [done| | |].
    + rewrite lookup_insert_eq, lookup_insert_ne by done.
      intros [= <-] H2. cbn. destruct (Ht _ _ H2) as [_ Hin].
      intros Heq. by rewrite <- Heq in Hin.
    + rewrite lookup_insert_ne, lookup_insert_eq by done.
      intros H1 [= <-]. cbn. destruct (Ht _ _ H1) as [_ Hin].
      intros Heq. by rewrite Heq in Hin.
    + rewrite !lookup_insert_ne by done. by apply Hs.
  - intros rid r' k s Hr' Hstart. rewrite Hses.
    destruct (Href _ _ Hr') as (r & Hr0 & Ho & Hst0).
    unfold runMap. rewrite Ho.
    destruct (decide (cid = k)) as [<-|Hnek].
    + rewrite lookup_insert_eq. intros [= <-]. cbn.
      pose proof (Hr _ _ Hr0) as Hin. unfold runMap in Hin.
      intros Heq. by rewrite Heq in Hin.
    + rewrite lookup_insert_ne by done. intros Hk. eapply Hst; eauto.
Qed.

Lemma wf_delete w w' cid :
  wellFormed w →
  sessions w' = delete cid (sessions w) → dom (heap w') = dom (heap w) →
  runs w' = runs w →
  wellFormed w'.
Proof.
  intros [Ht Hr Hs Hst] Hses Hdom Hruns.
  assert (∀ k s, sessions w' !! k = Some s → sessions w !! k = Some s) as Hold.
  { intros k s. rewrite Hses, lookup_delete. by case_decide. }
  split.
  - intros k s Hk. rewrite Hdom. by apply Ht, Hold.
  - intros rid r. rewrite Hruns, Hdom. apply Hr.
  - intros k1 k2 s1 s2 Hne H1 H2. eapply Hs; eauto.
  - intros rid r k s Hrid Hstart Hk. rewrite Hruns in Hrid. eapply Hst; eauto.
Qed.

Lemma wf_alloc w w' :
  wellFormed w →
  sessions w' = sessions w → heap w' = <[fresh (dom (heap w)) := ∅]> (heap w) →
  runs w' = runs w →
  wellFormed w'.
Proof.
  intros [Ht Hr Hs Hst] Hses Hheap Hruns.
  assert (dom (heap w') = {[fresh (dom (heap w))]} ∪ dom (heap w)) as Hdom
    by (rewrite Hheap; apply dom_insert_L).
  split.
  - intros k s. rewrite Hses, Hdom. intros Hk. destruct (Ht _ _ Hk).
    split; [done | set_solver].
  - intros rid r. rewrite Hruns, Hdom. intros Hrid.
    pose proof (Hr _ _ Hrid). set_solver.
  - intros k1 k2 s1 s2. rewrite Hses. apply Hs.
  - intros rid r k s. rewrite Hruns, Hses. apply Hst.
Qed.

Lemma wf_push w w' r :
  wellFormed w →
  sessions w' = sessions w → heap w' = heap w → runs w' = runs w ++ [r] →
  runMap r ∈ dom (heap w) →
  (isStart (closure r) = true →
   ∀ k s, sessions w !! k = Some s → runMap r ≠ pendingPermissions s) →
  wellFormed w'.
Proof.
  intros [Ht Hr Hs Hst] Hses Hheap Hruns Hin Hapart.
  assert (∀ rid r', runs w' !! rid = Some r' →
            runs w !! rid = Some r' ∨ r' = r) as Hold.
  { intros rid r'. rewrite Hruns. intros [H|[_ H]]%lookup_app_Some; [by left|].
    right. destruct (rid - length (runs w)) as [|n]; cbn in H; [congruence | done]. }
  split.
  - intros k s. rewrite Hses, Hheap. apply Ht.
  - intros rid r' Hr'. rewrite Hheap. destruct (Hold _ _ Hr') as [H| ->]; eauto.
  - intros k1 k2 s1 s2. rewrite Hses. apply Hs.
  - intros rid r' k s Hr' Hstart. rewrite Hses. intros Hk.
    destruct (Hold _ _ Hr') as [H| ->]; eauto.
Qed.

Lemma wf_alter_status w w' cid patch :
  wellFormed w →
  sessions w' = alter (λ s, assign s patch) cid (sessions w) →
  dom (heap w') = dom (heap w) → runs w' = runs w →
  wellFormed w'.
Proof.
  intros Hw Hses Hdom Hruns.
  destruct (sessions w !! cid) as [s|] eqn:Hs.
  - eapply (wf_status w w' cid s (status (assign s patch))); try done.
    rewrite Hses. apply map_eq. intros k. rewrite lookup_alter.
    destruct (decide (cid = k)) as [<-|Hne].
    + by rewrite lookup_insert_eq, Hs.
    + by rewrite lookup_insert_ne.
  - eapply wf_same; [exact Hw| |done|rewrite Hruns; apply runsRefine_refl].
    rewrite Hses. apply map_eq. intros k. rewrite lookup_alter.
    case_decide; [|done]. subst. by rewrite Hs.
Qed.

Lemma emit_wf e w : wellFormed w → wellFormed (exec (emit e) w).
Proof.
  intros Hw. unfold exec.
  destruct e as [| |sid st title cwd error| | | | |];
    try (eapply wf_same; [exact Hw|done|done|apply runsRefine_refl]).
  rewrite emit_status_eq. cbn [snd].
  destruct (sessions w !! sid) as [s|] eqn:Hs.
  - eapply (wf_status w _ sid s st); done.
  - eapply wf_same; [exact Hw|done|done|apply runsRefine_refl].
Qed.

Lemma handleClientEvent_wf event w :
  wellFormed w → wellFormed (turn (handleClientEvent event) w).
Proof.
  intros Hw. destruct event as [title prompt cwd tools|cid prompt|sid|sid| |sid|sid tid result].
  - erewrite turn_normal by apply start_eq.
    set (l := fresh (dom (heap w))).
    assert (wellFormed (with_heap (insert l ∅) w)) as Hw1
      by (eapply wf_alloc; [exact Hw|done..]).
    eapply wf_push; [exact Hw1|done|done|done| |].
    + cbn. rewrite dom_insert_L. set_solver.
    + intros _ k s Hk. cbn in Hk. cbn.
      destruct (wf_table _ Hw _ _ Hk) as [_ Hin].
      intros Heq. rewrite <- Heq in Hin. by apply is_fresh in Hin.
  - erewrite turn_normal by apply continue_eq.
    destruct (sessions w !! cid) as [s|] eqn:Hs.
    + assert (wellFormed
                (with_sessions
                   (insert cid (assign s {| patch_status := Some Running |})) w))
        as Hw1 by (eapply (wf_status w _ cid s Running); done).
      eapply wf_push; [exact Hw1|done|done|done| |done].
      cbn. by apply (wf_table _ Hw _ _ Hs).
    + set (l := fresh (dom (heap w))).
      assert (wellFormed
                (with_sessions
                   (insert cid {| conversationId := cid; status := Running;
                                  pendingPermissions := l |})
                   (with_heap (insert l ∅) w))) as Hw1
        by (eapply (wf_create w _ cid Running); [exact Hw|done|done|apply runsRefine_refl]).
      eapply wf_push; [exact Hw1|done|done|done| |done].
      cbn. rewrite dom_insert_L. set_solver.
  - erewrite turn_normal by apply stop_eq.
    destruct (afterAbort_frame sid w) as (Hses & Hruns & _ & _ & _ & _ & Hdom & _).
    eapply wf_alter_status; [exact Hw| | |]; cbn -[afterAbort];
      rewrite ?Hses, ?Hruns, ?Hdom; done.
  - erewrite turn_normal by apply delete_eq.
    destruct (afterAbort_frame sid w) as (Hses & Hruns & _ & _ & _ & _ & Hdom & _).
    eapply wf_delete; [exact Hw| | |]; cbn -[afterAbort];
      rewrite ?Hses, ?Hruns, ?Hdom; done.
  - erewrite turn_normal by apply list_eq.
    eapply wf_same; [exact Hw|done|done|apply runsRefine_refl].
  - erewrite turn_normal by apply history_eq.
    eapply wf_same; [exact Hw|done|done|apply runsRefine_refl].
  - erewrite turn_normal by apply response_eq.
    destruct (afterResponse_frame sid tid result w)
      as (Hses & Hruns & _ & _ & _ & _ & _ & Hdom).
    eapply wf_same; [exact Hw|done|done|]. rewrite Hruns. apply runsRefine_refl.
Qed.

Lemma step_wf l w w' : wellFormed w → step l w = Some w' → wellFormed w'.
Proof.
  intros Hw. destruct l as [event|rid outcome|rid e|rid updates|rid p|rid tid].
  - cbn. intros [= <-]. by apply handleClientEvent_wf.
  - destruct (runs w !! rid) as [r|] eqn:Hr; [|by cbn; rewrite Hr].
    destruct (settled r) eqn:Hs; [by rewrite (step_settled_None _ _ _ _ Hr Hs)|].
    rewrite (step_settle_eq _ _ _ _ Hr Hs). intros [= <-].
    assert (wellFormed (with_runs (settle rid) w)) as Hw0
      by (eapply wf_same; [exact Hw|done|done|apply runsRefine_settle]).
    destruct outcome as [h|v].
    + rewrite resume_resolved_turn.
      destruct (closure r) as [prompt cwd c h0|cid] eqn:Hc.
      * eapply wf_same; [exact Hw0|done|done|].
        apply runsRefine_assign. intros r0 Hr0 _.
        cbn in Hr0. rewrite (settle_lookup _ _ _ Hr) in Hr0.
        injection Hr0 as <-. cbn. by rewrite Hc.
      * eapply wf_same; [exact Hw0|done|done|apply runsRefine_refl].
    + rewrite resume_rejected_turn.
      destruct (afterFailure_frame (closure r) v (with_runs (settle rid) w))
        as (Hheap & Hruns & _ & _ & _ & _ & Hses).
      destruct (closure r) as [prompt cwd c h0|cid].
      * eapply wf_same; [exact Hw0|done|by rewrite Hheap|].
        rewrite Hruns. apply runsRefine_refl.
      * eapply wf_alter_status; [exact Hw0|exact Hses|by rewrite Hheap|done].
  - destruct (runs w !! rid) as [r|] eqn:Hr; [|by cbn; rewrite Hr].
    rewrite (step_event_eq _ _ _ _ Hr). intros [= <-]. by apply emit_wf.
  - destruct (runs w !! rid) as [r|] eqn:Hr; [|by cbn; rewrite Hr].
    rewrite (step_update_eq _ _ _ _ Hr). intros [= <-]. unfold exec.
    destruct (closure r) as [prompt cwd c h|cid] eqn:Hc; [|done].
    rewrite onSessionUpdate_start_eq. cbn [snd].
    destruct (lettaConversationId updates) as [cid|]; [|done].
    destruct (truthy cid && negb (truthy_opt c)); [|done].
    eapply (wf_create w _ cid Running); [exact Hw|done|done|].
    apply runsRefine_assign. intros r0 Hr0 _. rewrite Hr in Hr0.
    injection Hr0 as <-. by rewrite Hc.
  - destruct (runs w !! rid) as [r|] eqn:Hr; [|by cbn; rewrite Hr].
    rewrite (step_set_pending_eq _ _ _ _ Hr). intros [= <-].
    eapply wf_same; [exact Hw|done| |apply runsRefine_refl].
    cbn. apply dom_alter_L.
  - destruct (runs w !! rid) as [r|] eqn:Hr; [|by cbn; rewrite Hr].
    rewrite (step_delete_pending_eq _ _ _ _ Hr). intros [= <-].
    eapply wf_same; [exact Hw|done| |apply runsRefine_refl].
    cbn. apply dom_alter_L.
Qed.

Lemma boot_wf rn : wellFormed (boot rn).
Proof.
  split.
  - intros k s. cbn. by rewrite lookup_empty.
  - intros rid r. cbn. by rewrite lookup_nil.
  - intros k1 k2 s1 s2 _. cbn. by rewrite lookup_empty.
  - intros rid r k s. cbn. by rewrite lookup_nil.
Qed.

Lemma reachable_wf w : reachable w → wellFormed w.
Proof.
  intros (rn & ls & Hls). revert Hls. generalize (boot_wf rn). generalize (boot rn).
  induction ls as [|l ls IH]; intros w0 Hw0; cbn.
  - by intros [= <-].
  - destruct (step l w0) as [w1|] eqn:Hstep; cbn; [|done].
    apply IH. by eapply step_wf.
Qed.

Lemma mapGet_alter_ne f (h : gmap loc (gmap string PendingPermission)) l l' key :
  l ≠ l' → mapGet (alter f l h) l' key = mapGet h l' key.
Proof. intros Hne. unfold mapGet. by rewrite lookup_alter_ne. Qed.

Lemma after_reachable ls : is_Some (steps ls initial) → reachable (after ls).
Proof. intros [w Hw]. exists quietRunner, ls. unfold after. by rewrite Hw. Qed.

(** X10.  In every world the router can reach, a session is stored under
    its own conversation id and its [pendingPermissions] map exists. *)
Theorem stored_session_has_its_id (w : World) (k : string) (s : RuntimeSession) :
  reachable w → sessions w !! k = Some s →
  conversationId s = k ∧ is_Some (heap w !! pendingPermissions s).
Proof.
  intros Hw%reachable_wf Hk. destruct (wf_table _ Hw _ _ Hk) as [Hid Hin].
  split; [done|]. by apply elem_of_dom.
Qed.

Lemma stored_session_has_its_id_witness :
  conversationId {| conversationId := "c1"; status := Error;
                    pendingPermissions := 1%positive |} = "c1"
  ∧ is_Some (heap (after failing_continue) !! 1%positive).
Proof.
  apply (stored_session_has_its_id (after failing_continue) "c1"
           {| conversationId := "c1"; status := Error;
              pendingPermissions := 1%positive |}).
  - apply after_reachable. vm_compute. eauto.
  - vm_compute. reflexivity.
Defined.

(** X11.  Two stored sessions never share a [pendingPermissions] map.  So
    when the runner of a call registers or removes an entry in the map of
    one session, no [permission.response] for another session id finds
    anything it did not find before. *)
Theorem sessions_have_separate_maps
    (w : World) (k1 k2 : string) (s1 s2 : RuntimeSession) (rid : nat) (r : Run) :
  reachable w → k1 ≠ k2 →
  sessions w !! k1 = Some s1 → sessions w !! k2 = Some s2 →
  runs w !! rid = Some r → runMap r = pendingPermissions s1 →
  pendingPermissions s1 ≠ pendingPermissions s2
  ∧ (∀ p tid, ∃ w', step (SetPending rid p) w = Some w'
                  ∧ pendingEntry w' k2 tid = pendingEntry w k2 tid)
  ∧ (∀ key tid, ∃ w', step (DeletePending rid key) w = Some w'
                    ∧ pendingEntry w' k2 tid = pendingEntry w k2 tid).
Proof.
  intros Hw%reachable_wf Hne H1 H2 Hr Hmap.
  pose proof (wf_separate _ Hw _ _ _ _ Hne H1 H2) as Hsep.
  split; [done|]. unfold runMap in Hmap. split.
  - intros p tid. eexists. split; [by apply step_set_pending_eq|].
    unfold pendingEntry. cbn. rewrite H2, Hmap. by apply mapGet_alter_ne.
  - intros key tid. eexists. split; [by apply step_delete_pending_eq|].
    unfold pendingEntry. cbn. rewrite H2, Hmap. by apply mapGet_alter_ne.
Qed.

Lemma sessions_have_separate_maps_witness :
  (1%positive : loc) ≠ 2%positive
  ∧ (∀ p tid, ∃ w', step (SetPending 0 p) (after two_sessions) = Some w'
                  ∧ pendingEntry w' "c2" tid = pendingEntry (after two_sessions) "c2" tid)
  ∧ (∀ key tid, ∃ w', step (DeletePending 0 key) (after two_sessions) = Some w'
                    ∧ pendingEntry w' "c2" tid
                      = pendingEntry (after two_sessions) "c2" tid).
Proof.
  apply (sessions_have_separate_maps (after two_sessions) "c1" "c2"
           {| conversationId := "c1"; status := Running;
              pendingPermissions := 1%positive |}
           {| conversationId := "c2"; status := Running;
              pendingPermissions := 2%positive |}
           0 (continueRun "c1" "hello" 1%positive)).
  - apply after_reachable. vm_compute. eauto.
  - discriminate.
  - vm_compute. reflexivity.
  - vm_compute. reflexivity.
  - vm_compute. reflexivity.
  - reflexivity.
Defined.

(** X12.  The map handed to the runner of a [session.start] is never the
    map of a stored session: whatever that runner registers in it or
    removes from it, every [permission.response] finds what it found
    before. *)
Theorem started_call_map_is_no_session_map
    (w : World) (rid : nat) (r : Run) :
  reachable w → runs w !! rid = Some r → isStart (closure r) = true →
  (∀ k s, sessions w !! k = Some s → runMap r ≠ pendingPermissions s)
  ∧ (∀ p sid tid, ∃ w', step (SetPending rid p) w = Some w'
                      ∧ pendingEntry w' sid tid = pendingEntry w sid tid)
  ∧ (∀ key sid tid, ∃ w', step (DeletePending rid key) w = Some w'
                        ∧ pendingEntry w' sid tid = pendingEntry w sid tid).
Proof.
  intros Hw%reachable_wf Hr Hstart.
  assert (∀ k s, sessions w !! k = Some s → runMap r ≠ pendingPermissions s) as Hapart
    by (intros k s Hk; by eapply (wf_started _ Hw)).
  split; [exact Hapart|]. split.
  - intros p sid tid. eexists. split; [by apply step_set_pending_eq|].
    unfold pendingEntry. cbn. destruct (sessions w !! sid) as [s|] eqn:Hs; [|done].
    apply mapGet_alter_ne. by eapply Hapart.
  - intros key sid tid. eexists. split; [by apply step_delete_pending_eq|].
    unfold pendingEntry. cbn. destruct (sessions w !! sid) as [s|] eqn:Hs; [|done].
    apply mapGet_alter_ne. by eapply Hapart.
Qed.

Lemma started_call_map_is_no_session_map_witness :
  ∃ w', step (SetPending 0 ask) (after started_and_acknowledged) = Some w'
      ∧ pendingEntry w' "c1" "t1" = pendingEntry (after started_and_acknowledged) "c1" "t1".
Proof.
  destruct (started_call_map_is_no_session_map (after started_and_acknowledged) 0
              {| options := options (startRun "title" "hello" None 1%positive);
                 closure := StartClosure "hello" None (Some "c1") (Some 5);
                 settled := true |}) as (_ & H & _).
  - apply after_reachable. vm_compute. eauto.
  - vm_compute. reflexivity.
  - reflexivity.
  - apply H.
Defined.

(* ===================================================================== *)
(** ** What the router does to the maps *)
(* ===================================================================== *)

Lemma emit_heap e w : heap (exec (emit e) w) = heap w.
Proof.
  unfold exec. destruct e; try done.
  rewrite emit_status_eq. cbn. by destruct (sessions w !! sessionId).
Qed.

Lemma step_heap_router l w w' :
  routerLabel l = true → step l w = Some w' →
  match closureEffect l w with
  | Some effect => heap w' = applyEffect effect (heap w)
  | None => heap w' = heap w ∨ heap w' = <[fresh (dom (heap w)) := ∅]> (heap w)
  end.
Proof.
  destruct l as [event|rid outcome|rid e|rid updates|rid p|rid tid]; [| | | |done..];
    intros _.
  - cbn [step]. intros [= <-].
    destruct event as [title prompt cwd tools|cid prompt|sid|sid| |sid|sid tid result];
      cbn [closureEffect].
    + erewrite turn_normal by apply start_eq. by right.
    + erewrite turn_normal by apply continue_eq.
      destruct (sessions w !! cid); [by left | by right].
    + erewrite turn_normal by apply stop_eq. cbn -[afterAbort]. unfold afterAbort.
      destruct (runnerHandles w !! sid); cbn; [done | by left].
    + erewrite turn_normal by apply delete_eq. cbn -[afterAbort]. unfold afterAbort.
      destruct (runnerHandles w !! sid); cbn; [done | by left].
    + erewrite turn_normal by apply list_eq. by left.
    + erewrite turn_normal by apply history_eq. by left.
    + erewrite turn_normal by apply response_eq. unfold afterResponse.
      destruct (pendingEntry w sid tid); cbn; [done | by left].
  - cbn [closureEffect].
    destruct (runs w !! rid) as [r|] eqn:Hr; [|by cbn; rewrite Hr].
    destruct (settled r) eqn:Hs; [by rewrite (step_settled_None _ _ _ _ Hr Hs)|].
    rewrite (step_settle_eq _ _ _ _ Hr Hs). intros [= <-]. left.
    destruct outcome as [h|v].
    + rewrite resume_resolved_turn. by destruct (closure r).
    + rewrite resume_rejected_turn.
      by rewrite (proj1 (afterFailure_frame _ _ _)).
  - cbn [closureEffect].
    destruct (runs w !! rid) as [r|] eqn:Hr; [|by cbn; rewrite Hr].
    rewrite (step_event_eq _ _ _ _ Hr). intros [= <-]. left. apply emit_heap.
  - cbn [closureEffect].
    destruct (runs w !! rid) as [r|] eqn:Hr; [|by cbn; rewrite Hr].
    rewrite (step_update_eq _ _ _ _ Hr). intros [= <-]. unfold exec.
    destruct (closure r) as [prompt cwd c h|cid]; [|by left].
    rewrite onSessionUpdate_start_eq. cbn [snd].
    destruct (lettaConversationId updates) as [cid|]; [|by left].
    destruct (truthy cid && negb (truthy_opt c)); [by right | by left].
Qed.

Lemma ownCode_closureEffect l w : ownCode l = true → closureEffect l w = None.
Proof.
  unfold ownCode. destruct l as [[]| | | | |]; cbn; done.
Qed.

(** X13.  The code of the router never adds, changes or removes a pending
    entry.  In a turn of router code the maps change in one of three ways
    only: by what the [resolve] of an entry does when a
    [permission.response] finds the entry, by what the [abort] of a handle
    does when a stop or a delete finds the handle, and otherwise by the
    creation of a new, empty map at most.  So over any sequence of turns in
    which the router calls neither closure (start, continue, list and
    history requests, settlements, events and session updates) every map
    that exists keeps exactly the entries it has. *)
Theorem router_keeps_entries (w : World) :
  (∀ l w', routerLabel l = true → step l w = Some w' →
     match closureEffect l w with
     | Some effect => heap w' = applyEffect effect (heap w)
     | None => heap w' = heap w ∨ heap w' = <[fresh (dom (heap w)) := ∅]> (heap w)
     end)
  ∧ (∀ ls w', forallb ownCode ls = true → steps ls w = Some w' →
       ∀ l entries, heap w !! l = Some entries → heap w' !! l = Some entries).
Proof.
  split; [intros l w'; apply step_heap_router|].
  intros ls. revert w. induction ls as [|x ls IH]; intros w w' Hls; cbn [steps].
  - by intros [= <-].
  - cbn in Hls. apply andb_prop in Hls as [Hx Hls].
    destruct (step x w) as [w1|] eqn:Hstep; [|done]. cbn [mbind option_bind].
    intros Hsteps l entries Hl. eapply IH; [done..|].
    assert (routerLabel x = true) as Hrouter
      by (unfold ownCode in Hx; by apply andb_prop in Hx as [? _]).
    pose proof (step_heap_router _ _ _ Hrouter Hstep) as Hheap.
    rewrite (ownCode_closureEffect _ _ Hx) in Hheap.
    destruct Hheap as [-> | ->]; [done|].
    rewrite lookup_insert_ne; [done|].
    intros <-. apply (is_fresh (dom (heap w))). apply elem_of_dom. eauto.
Qed.

Lemma router_keeps_entries_witness :
  heap (after (running_and_asked ++ [Client (SessionStop "c1")]))
  = applyEffect (abortEffect quietRunner 5) (heap (after running_and_asked))
  ∧ heap (after (running_and_asked ++ own_turns)) !! 1%positive
    = Some {[ "t1" := ask ]}.
Proof.
  destruct (router_keeps_entries (after running_and_asked)) as [Hstep Hsteps].
  split.
  - apply (Hstep (Client (SessionStop "c1"))
                 (after (running_and_asked ++ [Client (SessionStop "c1")]))).
    + reflexivity.
    + vm_compute. reflexivity.
  - apply (Hsteps own_turns (after (running_and_asked ++ own_turns))).
    + reflexivity.
    + vm_compute. reflexivity.
    + vm_compute. reflexivity.
Defined.

(* ===================================================================== *)
(** ** Which handles are aborted *)
(* ===================================================================== *)

Lemma handlesWithin_mono hs hs' w :
  handlesWithin hs w → hs ⊆ hs' → handlesWithin hs' w.
Proof. intros [Ha Hs Hr] Hsub. split; eauto. Qed.

Lemma handlesWithin_same hs w w' :
  handlesWithin hs w →
  aborted w' = aborted w → runnerHandles w' = runnerHandles w →
  (∀ rid r' h, runs w' !! rid = Some r' → closureHandle (closure r') = Some h →
     h ∈ hs) →
  handlesWithin hs w'.
Proof. intros [Ha Hs Hr] Hab Hst Hruns. split; [by rewrite Hab | by rewrite Hst | done]. Qed.

Lemma within_runs_push hs w r :
  handlesWithin hs w → closureHandle (closure r) = None →
  ∀ rid r' h, (runs w ++ [r]) !! rid = Some r' →
              closureHandle (closure r') = Some h → h ∈ hs.
Proof.
  intros Hw Hnone rid r' h [H|[_ H]]%lookup_app_Some Hh.
  - by eapply (within_runs _ _ Hw).
  - destruct (rid - length (runs w)) as [|n]; cbn in H; [|done].
    injection H as <-. congruence.
Qed.

Lemma within_runs_settle hs w rid0 :
  handlesWithin hs w →
  ∀ rid r' h, settle rid0 (runs w) !! rid = Some r' →
              closureHandle (closure r') = Some h → h ∈ hs.
Proof.
  intros Hw rid r' h. unfold settle.
  destruct (runs w !! rid0) as [r0|] eqn:Hr0; [|by apply (within_runs _ _ Hw)].
  destruct (decide (rid = rid0)) as [->|Hne].
  - rewrite list_lookup_insert_eq by (by eapply lookup_lt_Some).
    intros [= <-]. cbn. by apply (within_runs _ _ Hw _ _ _ Hr0).
  - rewrite list_lookup_insert_ne by done. by apply (within_runs _ _ Hw).
Qed.

Lemma within_runs_assign (hs : list RunnerHandle) rs rid0 c :
  (∀ rid r' h, rs !! rid = Some r' → closureHandle (closure r') = Some h → h ∈ hs) →
  (∀ h, closureHandle c = Some h → h ∈ hs) →
  ∀ rid r' h, assignClosure rid0 c rs !! rid = Some r' →
              closureHandle (closure r') = Some h → h ∈ hs.
Proof.
  intros Hrs Hc rid r' h. unfold assignClosure.
  destruct (rs !! rid0) as [r0|] eqn:Hr0; [|by apply Hrs].
  destruct (decide (rid = rid0)) as [->|Hne].
  - rewrite list_lookup_insert_eq by (by eapply lookup_lt_Some).
    intros [= <-]. cbn. apply Hc.
  - rewrite list_lookup_insert_ne by done. by apply Hrs.
Qed.

Lemma abortHandle_within hs w sid :
  handlesWithin hs w → handlesWithin hs (afterAbort sid w).
Proof.
  intros Hw. unfold afterAbort.
  destruct (runnerHandles w !! sid) as [h|] eqn:Hh; [|done].
  split; cbn.
  - intros h' [Hin | ->%list_elem_of_singleton]%elem_of_app.
    + by apply (within_aborted _ _ Hw).
    + by apply (within_store _ _ Hw _ _ Hh).
  - intros cid h'. rewrite lookup_delete. case_decide; [done|].
    by apply (within_store _ _ Hw).
  - by apply (within_runs _ _ Hw).
Qed.

Lemma step_handlesWithin hs l w w' :
  handlesWithin hs w → step l w = Some w' →
  handlesWithin (hs ++ option_list (returnedBy l)) w'.
Proof.
  intros Hw.
  assert (hs ⊆ hs ++ option_list (returnedBy l)) as Hsub by set_solver.
  pose proof (handlesWithin_mono _ _ _ Hw Hsub) as Hw'.
  destruct l as [event|rid outcome|rid e|rid updates|rid p|rid tid].
  - cbn [step]. intros [= <-].
    destruct event as [title prompt cwd tools|cid prompt|sid|sid| |sid|sid tid result].
    + erewrite turn_normal by apply start_eq.
      eapply handlesWithin_same; [exact Hw'|done|done|].
      cbn. by apply (within_runs_push _ w).
    + erewrite turn_normal by apply continue_eq.
      destruct (sessions w !! cid);
        (eapply handlesWithin_same; [exact Hw'|done|done|];
         cbn; by apply (within_runs_push _ w)).
    + erewrite turn_normal by apply stop_eq.
      pose proof (abortHandle_within _ _ sid Hw') as Ha.
      eapply handlesWithin_same; [exact Ha|done|done|].
      cbn. apply (within_runs _ _ Ha).
    + erewrite turn_normal by apply delete_eq.
      pose proof (abortHandle_within _ _ sid Hw') as Ha.
      eapply handlesWithin_same; [exact Ha|done|done|].
      cbn. apply (within_runs _ _ Ha).
    + erewrite turn_normal by apply list_eq.
      eapply handlesWithin_same; [exact Hw'|done|done|].
      apply (within_runs _ _ Hw').
    + erewrite turn_normal by apply history_eq.
      eapply handlesWithin_same; [exact Hw'|done|done|].
      apply (within_runs _ _ Hw').
    + erewrite turn_normal by apply response_eq.
      destruct (afterResponse_frame sid tid result w)
        as (_ & Hruns & _ & Hab & Hst & _).
      eapply handlesWithin_same; [exact Hw'|done|done|].
      rewrite Hruns. apply (within_runs _ _ Hw').
  - destruct (runs w !! rid) as [r|] eqn:Hr; [|by cbn; rewrite Hr].
    destruct (settled r) eqn:Hs; [by rewrite (step_settled_None _ _ _ _ Hr Hs)|].
    rewrite (step_settle_eq _ _ _ _ Hr Hs). intros [= <-].
    destruct outcome as [h|v].
    + rewrite resume_resolved_turn.
      destruct (closure r) as [prompt cwd c h0|cid] eqn:Hc.
      * eapply handlesWithin_same; [exact Hw'|done|done|]. cbn.
        apply within_runs_assign; [by apply within_runs_settle|].
        cbn. intros h' [= <-]. set_solver.
      * split; cbn.
        -- apply (within_aborted _ _ Hw').
        -- intros cid' h'. rewrite lookup_insert. case_decide.
           ++ intros [= <-]. set_solver.
           ++ apply (within_store _ _ Hw').
        -- by apply within_runs_settle.
    + rewrite resume_rejected_turn.
      destruct (afterFailure_frame (closure r) v (with_runs (settle rid) w))
        as (_ & Hruns & Hst & Hab & _).
      eapply handlesWithin_same; [exact Hw'|done|done|].
      rewrite Hruns. cbn. by apply within_runs_settle.
  - destruct (runs w !! rid) as [r|] eqn:Hr; [|by cbn; rewrite Hr].
    rewrite (step_event_eq _ _ _ _ Hr). intros [= <-]. unfold exec.
    rewrite emit_normal. cbn [snd].
    eapply handlesWithin_same; [exact Hw'| | |].
    + unfold exec. destruct (relabel (closure r) e); try done.
      rewrite emit_status_eq. cbn. by destruct (sessions w !! sessionId).
    + unfold exec. destruct (relabel (closure r) e); try done.
      rewrite emit_status_eq. cbn. by destruct (sessions w !! sessionId).
    + rewrite (proj1 (emit_frame _ _)). apply (within_runs _ _ Hw').
  - destruct (runs w !! rid) as [r|] eqn:Hr; [|by cbn; rewrite Hr].
    rewrite (step_update_eq _ _ _ _ Hr). intros [= <-]. unfold exec.
    destruct (closure r) as [prompt cwd c h|cid] eqn:Hc; [|done].
    rewrite onSessionUpdate_start_eq. cbn [snd].
    destruct (lettaConversationId updates) as [cid|]; [|done].
    destruct (truthy cid && negb (truthy_opt c)); [|done].
    assert (∀ h', h = Some h' → h' ∈ hs ++ option_list (returnedBy (OnSessionUpdate rid updates)))
      as Hh.
    { intros h' ->. apply (within_runs _ _ Hw' _ _ _ Hr). by rewrite Hc. }
    split; cbn.
    + apply (within_aborted _ _ Hw').
    + intros cid' h'. destruct h as [h0|]; [|apply (within_store _ _ Hw')].
      rewrite lookup_insert. case_decide.
      * intros [= <-]. by apply Hh.
      * apply (within_store _ _ Hw').
    + apply within_runs_assign; [apply (within_runs _ _ Hw') | exact Hh].
  - destruct (runs w !! rid) as [r|] eqn:Hr; [|by cbn; rewrite Hr].
    rewrite (step_set_pending_eq _ _ _ _ Hr). intros [= <-].
    eapply handlesWithin_same; [exact Hw'|done|done|apply (within_runs _ _ Hw')].
  - destruct (runs w !! rid) as [r|] eqn:Hr; [|by cbn; rewrite Hr].
    rewrite (step_delete_pending_eq _ _ _ _ Hr). intros [= <-].
    eapply handlesWithin_same; [exact Hw'|done|done|apply (within_runs _ _ Hw')].
Qed.

Lemma steps_handlesWithin ls hs w w' :
  handlesWithin hs w → steps ls w = Some w' →
  handlesWithin (hs ++ omap returnedBy ls) w'.
Proof.
  revert hs w. induction ls as [|l ls IH]; intros hs w Hw; cbn [steps].
  - intros [= <-]. cbn. by rewrite app_nil_r.
  - destruct (step l w) as [w1|] eqn:Hstep; [|done]. cbn [mbind option_bind].
    intros Hsteps. eapply step_handlesWithin in Hstep; [|exact Hw].
    eapply IH in Hsteps; [|exact Hstep].
    eapply handlesWithin_mono; [exact Hsteps|].
    rewrite <- app_assoc. cbn [omap list_omap]. by destruct (returnedBy l).
Qed.

Lemma boot_handlesWithin rn : handlesWithin [] (boot rn).
Proof.
  split; cbn.
  - intros ? ?%elem_of_nil. done.
  - intros ??. by rewrite lookup_empty.
  - intros ???. by rewrite lookup_nil.
Qed.

(** X14.  The router aborts and stores only handles that a [runLetta] call
    has returned: after any sequence of turns from the initial world, with
    any runner, every
    aborted handle and every handle in the store is the result of a call
    that settled in that sequence. *)
Theorem aborted_handles_were_returned
    (rn : Runner) (ls : list Label) (w : World) (h : RunnerHandle) :
  steps ls (boot rn) = Some w →
  (h ∈ aborted w ∨ ∃ cid, runnerHandles w !! cid = Some h) →
  ∃ rid, Settle rid (Resolved h) ∈ ls.
Proof.
  intros Hsteps Hh.
  pose proof (steps_handlesWithin _ _ _ _ (boot_handlesWithin rn) Hsteps) as Hw.
  cbn [app] in Hw.
  assert (h ∈ omap returnedBy ls) as Hin.
  { destruct Hh as [Hh | [cid Hh]].
    - by apply (within_aborted _ _ Hw).
    - by apply (within_store _ _ Hw _ _ Hh). }
  apply list_elem_of_omap in Hin as (l & Hl & Hret).
  destruct l as [|rid [h'|]| | | |]; try done.
  injection Hret as ->. eauto.
Qed.

Lemma aborted_handles_were_returned_witness :
  ∃ rid, Settle rid (Resolved 5) ∈ stopped.
Proof.
  apply (aborted_handles_were_returned quietRunner stopped (after stopped) 5).
  - vm_compute. reflexivity.
  - left. vm_compute. apply list_elem_of_here.
Defined.

(* ===================================================================== *)
(** ** The runner-handle store *)
(* ===================================================================== *)




(** *** The calls that have returned *)






(** *** The handles in the store are active *)














(* ===================================================================== *)
(** ** Events of an acknowledged start *)
(* ===================================================================== *)

(** X15.  Once a started call has been acknowledged with a conversation
    id, every event its runner sends is broadcast under that id: the
    broadcast event is the runner's event with its [sessionId] replaced by
    the conversation id, and an event without a [sessionId] is broadcast as
    it is.  A status the runner reports is therefore stored in the session
    of the conversation, whatever id the runner used. *)
Theorem acknowledged_start_relabels_events
    (w : World) (rid : nat) (r : Run) (prompt : string) (cwd : option string)
    (cid : string) (h : option RunnerHandle) (e : ServerEvent) :
  runs w !! rid = Some r →
  closure r = StartClosure prompt cwd (Some cid) h →
  truthy cid = true →
  ∃ w' e', step (OnEvent rid e) w = Some w'
    ∧ broadcasts w' = broadcasts w ++ [e']
    ∧ sessionIdOf e' = (if hasSessionId e then Some cid else None)
    ∧ (∀ x, setSessionId x e' = setSessionId x e)
    ∧ (∀ sid st title cwd' error s,
         e = SessionStatusEv sid st title cwd' error →
         sessions w !! cid = Some s →
         sessions w' !! cid
         = Some {| conversationId := conversationId s; status := st;
                   pendingPermissions := pendingPermissions s |}).
Proof.
  intros Hr Hc Hcid. exists (exec (emit (relabel (closure r) e)) w), (relabel (closure r) e).
  split; [by apply step_event_eq|].
  split; [apply emit_frame|].
  rewrite Hc. cbn [relabel relabelTo]. rewrite Hcid. cbn [andb].
  split; [by destruct e as [| | | | | | |[sid|]]|].
  split; [by destruct e as [| | | | | | |[sid|]]|].
  intros sid st title cwd' error s -> Hs. cbn [hasSessionId setSessionId].
  unfold exec. rewrite emit_status_eq, Hs. cbn. apply lookup_insert_eq.
Qed.

Lemma acknowledged_start_relabels_events_witness :
  let w := after started_and_acknowledged in
  let e := SessionStatusEv "pending" Completed None None None in
  ∃ w' e', step (OnEvent 0 e) w = Some w'
    ∧ broadcasts w' = broadcasts w ++ [e']
    ∧ sessionIdOf e' = Some "c1"
    ∧ (∀ x, setSessionId x e' = setSessionId x e)
    ∧ (∀ sid st title cwd' error s,
         e = SessionStatusEv sid st title cwd' error →
         sessions w !! "c1" = Some s →
         sessions w' !! "c1"
         = Some {| conversationId := conversationId s; status := st;
                   pendingPermissions := pendingPermissions s |}).
Proof.
  cbv zeta.
  apply (acknowledged_start_relabels_events (after started_and_acknowledged) 0
           {| options := options (startRun "title" "hello" None 1%positive);
              closure := StartClosure "hello" None (Some "c1") (Some 5);
              settled := true |}
           "hello" None "c1" (Some 5)
           (SessionStatusEv "pending" Completed None None None)).
  - vm_compute. reflexivity.
  - reflexivity.
  - reflexivity.
Defined.

(* ===================================================================== *)
(** ** Shutting down *)
(* ===================================================================== *)

Lemma forEach_abort hs w :
  forEach abort hs w = (Normal tt, foldl afterAbortCall w hs).
Proof.
  revert w. induction hs as [|h hs IH]; intros w; [done|].
  change (forEach abort (h :: hs) w) with (bind (abort h) (λ _, forEach abort hs) w).
  unfold bind. rewrite abort_eq. apply IH.
Qed.

Lemma cleanupAllSessions_eq w :
  cleanupAllSessions w =
    (Normal tt,
     with_runnerHandles (λ _, ∅)
       (foldl afterAbortCall w (map_to_list (runnerHandles w)).*2)).
Proof.
  unfold cleanupAllSessions. js_unfold. by rewrite forEach_abort.
Qed.

(** A sequence of [abort] calls: the calls are recorded in order, each
    closure acts on the maps in turn, and nothing else changes. *)
Lemma foldl_afterAbortCall hs w :
  sessions (foldl afterAbortCall w hs) = sessions w
  ∧ broadcasts (foldl afterAbortCall w hs) = broadcasts w
  ∧ runs (foldl afterAbortCall w hs) = runs w
  ∧ runnerHandles (foldl afterAbortCall w hs) = runnerHandles w
  ∧ resolved (foldl afterAbortCall w hs) = resolved w
  ∧ console (foldl afterAbortCall w hs) = console w
  ∧ uncaught (foldl afterAbortCall w hs) = uncaught w
  ∧ runner (foldl afterAbortCall w hs) = runner w
  ∧ aborted (foldl afterAbortCall w hs) = aborted w ++ hs
  ∧ heap (foldl afterAbortCall w hs)
    = foldl (λ h x, applyEffect (abortEffect (runner w) x) h) (heap w) hs
  ∧ dom (heap (foldl afterAbortCall w hs)) = dom (heap w).
Proof.
  revert w. induction hs as [|h hs IH]; intros w; cbn [foldl].
  - rewrite app_nil_r. split; [done|]. split; [done|]. split; [done|].
    split; [done|]. split; [done|]. split; [done|]. split; [done|].
    split; [done|]. split; [done|]. split; done.
  - destruct (IH (afterAbortCall w h))
      as (H1 & H2 & H3 & H4 & H5 & H6 & H7 & H8 & H9 & H10 & H11).
    rewrite H1, H2, H3, H4, H5, H6, H7, H8, H9, H11, H10. cbn.
    split; [done|]. split; [done|]. split; [done|].
    split; [done|]. split; [done|]. split; [done|]. split; [done|].
    split; [done|]. split; [by rewrite <- app_assoc|]. split; [done|].
    apply dom_applyEffect.
Qed.

(** X16.  [cleanupAllSessions] aborts the handle of every conversation in
    the store, once each, and empties the store.  It emits nothing and
    leaves the session table as it is, so a session that was running still
    has status [running]; the maps are changed only by what the [abort]
    closures do, one after the other in the order of the calls, and no map
    is removed.  Run again, it aborts nothing; and so does a [session.stop]
    or [session.delete] after it. *)
Theorem cleanup_aborts_every_handle (w : World) (request : ClientEvent) (sid : string) :
  let w' := exec cleanupAllSessions w in
  completion cleanupAllSessions w = Normal tt
  ∧ runnerHandles w' = ∅
  ∧ (∀ cid h, runnerHandles w !! cid = Some h → h ∈ aborted w')
  ∧ length (aborted w') = length (aborted w) + size (runnerHandles w)
  ∧ sessions w' = sessions w ∧ broadcasts w' = broadcasts w
  ∧ (∃ hs, hs ≡ₚ (map_to_list (runnerHandles w)).*2
         ∧ aborted w' = aborted w ++ hs
         ∧ heap w'
           = foldl (λ h x, applyEffect (abortEffect (runner w) x) h) (heap w) hs)
  ∧ dom (heap w') = dom (heap w)
  ∧ exec cleanupAllSessions w' = w'
  ∧ (request = SessionStop sid ∨ request = SessionDelete sid →
       aborted (exec (handleClientEvent request) w') = aborted w').
Proof.
  cbv zeta. unfold exec, completion. rewrite !cleanupAllSessions_eq. cbn [fst snd].
  destruct (foldl_afterAbortCall (map_to_list (runnerHandles w)).*2 w)
    as (H1 & H2 & H3 & H4 & H5 & H6 & H7 & H8 & H9 & H10 & H11).
  cbn [runnerHandles aborted sessions broadcasts heap with_runnerHandles].
  split; [done|]. split; [done|]. split.
  { intros cid h Hh. rewrite H9. apply elem_of_app. right.
    apply list_elem_of_fmap. exists (cid, h). split; [done|].
    by apply elem_of_map_to_list. }
  split.
  { rewrite H9, length_app, length_fmap. by rewrite length_map_to_list. }
  split; [done|]. split; [done|]. split; [eauto|]. split; [done|]. split.
  { rewrite map_to_list_empty. cbn [fmap list_fmap foldl].
    apply world_eq; done. }
  intros [-> | ->].
  - rewrite stop_eq. cbn -[afterAbort]. unfold afterAbort. cbn.
    by rewrite lookup_empty.
  - rewrite delete_eq. cbn -[afterAbort]. unfold afterAbort. cbn.
    by rewrite lookup_empty.
Qed.

Lemma cleanup_aborts_every_handle_witness :
  aborted (exec (handleClientEvent (SessionStop "c1"))
             (exec cleanupAllSessions one_session))
  = aborted (exec cleanupAllSessions one_session).
Proof.
  destruct (cleanup_aborts_every_handle one_session (SessionStop "c1") "c1")
    as (_ & _ & _ & _ & _ & _ & _ & _ & _ & H).
  apply H. by left.
Defined.

(* ===================================================================== *)
(** ** The session table as a store *)
(* ===================================================================== *)

(** X17.  The table is a key-value store: a session that was created is
    what [getSession] returns for its id; [deleteSession] tells whether the
    id had a session and after it [getSession] returns nothing for the id;
    neither creating nor deleting touches the session of another id; and
    [updateSession] for an id without session returns nothing and changes
    nothing. *)
Theorem session_table_round_trip (w : World) (cid other : string) (updates : SessionPatch) :
  let created := exec (createRuntimeSession cid) w in
  let deleted := exec (deleteSession cid) w in
  (∃ s, completion (createRuntimeSession cid) w = Normal s
        ∧ completion (getSession cid) created = Normal (Some s))
  ∧ completion (deleteSession cid) w
    = Normal (bool_decide (is_Some (sessions w !! cid)))
  ∧ completion (deleteSession cid) created = Normal true
  ∧ completion (getSession cid) deleted = Normal None
  ∧ exec (deleteSession cid) deleted = deleted
  ∧ (other ≠ cid →
       completion (getSession other) created = completion (getSession other) w
       ∧ completion (getSession other) deleted = completion (getSession other) w)
  ∧ (sessions w !! cid = None → updateSession cid updates w = (Normal None, w)).
Proof.
  cbv zeta. unfold completion, exec, getSession, deleteSession. js_unfold.
  rewrite createRuntimeSession_eq. cbn.
  rewrite !lookup_insert_eq, !lookup_delete_eq.
  split; [eauto|]. split; [done|].
  split; [by rewrite bool_decide_eq_true_2 by eauto|].
  split; [done|]. split.
  { apply world_eq; cbn; try done. by rewrite delete_delete_eq. }
  split.
  - intros Hne. by rewrite lookup_insert_ne, lookup_delete_ne.
  - intros Hnone. by rewrite updateSession_eq, Hnone.
Qed.

Lemma session_table_round_trip_witness :
  completion (getSession "c2") (exec (createRuntimeSession "c1") one_session)
  = completion (getSession "c2") one_session
  ∧ updateSession "c2" {| patch_status := Some Idle |} one_session
    = (Normal None, one_session).
Proof.
  destruct (session_table_round_trip one_session "c1" "c2" {| patch_status := Some Idle |})
    as (_ & _ & _ & _ & _ & H & _).
  destruct (session_table_round_trip one_session "c2" "c1" {| patch_status := Some Idle |})
    as (_ & _ & _ & _ & _ & _ & H').
  split; [by apply H | by apply H'].
Defined.

(* ===================================================================== *)
(** ** Stopping and deleting a session with pending requests *)
(* ===================================================================== *)

Lemma stop_sessions_heap sid w :
  sessions (exec (handleClientEvent (SessionStop sid)) w)
  = alter (λ s, assign s {| patch_status := Some Idle |}) sid (sessions w)
  ∧ heap (exec (handleClientEvent (SessionStop sid)) w) = heap (afterAbort sid w)
  ∧ resolved (exec (handleClientEvent (SessionStop sid)) w) = resolved w.
Proof.
  unfold exec. rewrite stop_eq. cbn -[afterAbort].
  destruct (afterAbort_frame sid w) as (-> & _ & _ & -> & _). done.
Qed.

Lemma heap_afterAbort sid w :
  heap (afterAbort sid w)
  = match runnerHandles w !! sid with
    | Some h => applyEffect (abortEffect (runner w) h) (heap w)
    | None => heap w
    end.
Proof. unfold afterAbort. by destruct (runnerHandles w !! sid). Qed.

(** X18.  [session.stop] keeps the session, and its own code removes no
    pending request: the session gets status [idle] and keeps its map, and
    the maps are what the [abort] of the stored handle makes of them, hence
    unchanged when no handle is stored for the id.  An entry that a response
    finds after the stop has its [resolve] called. *)
Theorem stop_keeps_pending_entries
    (w : World) (sid tid : string) (result : PermissionResult) :
  let stopped := exec (handleClientEvent (SessionStop sid)) w in
  (∀ s, sessions w !! sid = Some s →
     sessions stopped !! sid
     = Some {| conversationId := conversationId s; status := Idle;
               pendingPermissions := pendingPermissions s |})
  ∧ heap stopped
    = match runnerHandles w !! sid with
      | Some h => applyEffect (abortEffect (runner w) h) (heap w)
      | None => heap w
      end
  ∧ (runnerHandles w !! sid = None →
       pendingEntry stopped sid tid = pendingEntry w sid tid)
  ∧ (∀ p, pendingEntry stopped sid tid = Some p →
       resolved (exec (handleClientEvent (PermissionResponse sid tid result)) stopped)
       = resolved w ++ [(resolve p, result)]).
Proof.
  cbv zeta.
  destruct (stop_sessions_heap sid w) as (Hs & Hh & Hr).
  rewrite heap_afterAbort in Hh.
  split; [|split; [exact Hh|split]].
  - intros s Hsid. by rewrite Hs, lookup_alter_eq, Hsid.
  - intros Hnone. rewrite Hnone in Hh. unfold pendingEntry.
    rewrite Hs, Hh, lookup_alter_eq. by destruct (sessions w !! sid).
  - intros p Hp. unfold exec at 1. rewrite response_eq. cbn [snd].
    by rewrite (response_calls_resolve _ _ _ _ _ Hp), Hr.
Qed.

Lemma stop_keeps_pending_entries_witness :
  let stopped := exec (handleClientEvent (SessionStop "c1")) (after running_and_asked) in
  runnerHandles (after running_and_asked) !! "c1" = Some 5
  ∧ aborted stopped = [5]
  ∧ pendingEntry stopped "c1" "t1" = Some ask
  ∧ resolved (exec (handleClientEvent (PermissionResponse "c1" "t1" (Allow JsNull)))
                stopped)
    = resolved (after running_and_asked) ++ [(resolve ask, Allow JsNull)].
Proof.
  cbv zeta.
  split; [vm_compute; reflexivity|]. split; [vm_compute; reflexivity|].
  split; [vm_compute; reflexivity|].
  destruct (stop_keeps_pending_entries (after running_and_asked) "c1" "t1"
              (Allow JsNull)) as (_ & _ & _ & H).
  apply (H ask). vm_compute. reflexivity.
Defined.

(** With a runner whose [abort] empties the maps, the request is gone after
    the stop and a response finds nothing. *)
Lemma stop_with_tidy_runner_drops_the_request :
  let w := afterWith tidyRunner running_and_asked in
  let stopped := exec (handleClientEvent (SessionStop "c1")) w in
  pendingEntry w "c1" "t1" = Some ask
  ∧ pendingEntry stopped "c1" "t1" = None
  ∧ resolved (exec (handleClientEvent (PermissionResponse "c1" "t1" (Allow JsNull)))
                stopped) = [].
Proof. cbv zeta. split; [|split]; vm_compute; reflexivity. Qed.

(** X19.  [session.delete] forgets the session, and its own code clears no
    map: after it, a [permission.response] for the id is ignored, a
    [session.history] for the id reports [idle], the maps are what the
    [abort] of the stored handle makes of them, hence unchanged when no
    handle is stored, and a [session.continue] of the id gives a session
    that has no pending entry. *)
Theorem delete_forgets_session
    (w : World) (sid tid prompt : string) (result : PermissionResult) :
  let deleted := exec (handleClientEvent (SessionDelete sid)) w in
  sessions deleted = delete sid (sessions w)
  ∧ heap deleted
    = match runnerHandles w !! sid with
      | Some h => applyEffect (abortEffect (runner w) h) (heap w)
      | None => heap w
      end
  ∧ handleClientEvent (PermissionResponse sid tid result) deleted = (Normal tt, deleted)
  ∧ broadcasts (exec (handleClientEvent (SessionHistory sid)) deleted)
    = broadcasts deleted ++ [SessionHistoryEv sid Idle []]
  ∧ pendingEntry (exec (handleClientEvent (SessionContinue sid prompt)) deleted) sid tid
    = None.
Proof.
  cbv zeta.
  assert (sessions (exec (handleClientEvent (SessionDelete sid)) w)
          = delete sid (sessions w)
          ∧ heap (exec (handleClientEvent (SessionDelete sid)) w)
            = heap (afterAbort sid w))
    as [Hs Hh].
  { unfold exec. rewrite delete_eq. cbn -[afterAbort].
    by destruct (afterAbort_frame sid w) as (-> & _). }
  rewrite heap_afterAbort in Hh.
  assert (sessions (exec (handleClientEvent (SessionDelete sid)) w) !! sid = None)
    as Hnone by (rewrite Hs; apply lookup_delete_eq).
  split; [exact Hs|]. split; [exact Hh|]. split; [|split].
  - rewrite response_eq. unfold afterResponse, pendingEntry. by rewrite Hnone.
  - unfold exec at 1. rewrite history_eq. cbn. by rewrite Hnone.
  - unfold exec at 1. rewrite continue_eq, Hnone. unfold pendingEntry, mapGet. cbn.
    by rewrite !lookup_insert_eq.
Qed.

(* ===================================================================== *)
(** ** When the set of stored sessions changes *)
(* ===================================================================== *)

Lemma dom_alter_sessions f k (m : gmap string RuntimeSession) : dom (alter f k m) = dom m.
Proof. apply dom_alter_L. Qed.

Lemma emit_dom e w : dom (sessions (exec (emit e) w)) = dom (sessions w).
Proof.
  unfold exec. destruct e; try done.
  rewrite emit_status_eq. cbn. destruct (sessions w !! sessionId) eqn:Hs; [|done].
  cbn. rewrite dom_insert_L. apply elem_of_dom_2 in Hs. set_solver.
Qed.

(** X20.  Sessions are created only by a [session.continue] and by the
    session update of a start, and removed only by a [session.delete].  A
    start, a stop, a list or history request, a permission response, an
    event or a status the runner sends, and the return or failure of a call
    leave the set of stored conversation ids as it is. *)
Theorem session_set_changes_only_by (l : Label) (w w' : World) :
  changesSessionSet l = false → step l w = Some w' →
  dom (sessions w') = dom (sessions w).
Proof.
  destruct l as [event|rid outcome|rid e|rid updates|rid p|rid tid]; intros Hl.
  - cbn. intros [= <-].
    destruct event as [title prompt cwd tools|cid prompt|sid|sid| |sid|sid tid result];
      [|done| |done| | |].
    + by erewrite turn_normal by apply start_eq.
    + erewrite turn_normal by apply stop_eq. cbn -[afterAbort].
      rewrite dom_alter_sessions. by rewrite (proj1 (afterAbort_frame sid w)).
    + by erewrite turn_normal by apply list_eq.
    + by erewrite turn_normal by apply history_eq.
    + erewrite turn_normal by apply response_eq.
      by rewrite (proj1 (afterResponse_frame sid tid result w)).
  - destruct (runs w !! rid) as [r|] eqn:Hr; [|by cbn; rewrite Hr].
    destruct (settled r) eqn:Hs; [by rewrite (step_settled_None _ _ _ _ Hr Hs)|].
    rewrite (step_settle_eq _ _ _ _ Hr Hs). intros [= <-].
    destruct outcome as [h|v].
    + rewrite resume_resolved_turn. by destruct (closure r).
    + rewrite resume_rejected_turn.
      destruct (afterFailure_frame (closure r) v (with_runs (settle rid) w))
        as (_ & _ & _ & _ & _ & _ & ->).
      destruct (closure r); cbn; [done | apply dom_alter_sessions].
  - destruct (runs w !! rid) as [r|] eqn:Hr; [|by cbn; rewrite Hr].
    rewrite (step_event_eq _ _ _ _ Hr). intros [= <-]. apply emit_dom.
  - done.
  - destruct (runs w !! rid) as [r|] eqn:Hr; [|by cbn; rewrite Hr].
    rewrite (step_set_pending_eq _ _ _ _ Hr). by intros [= <-].
  - destruct (runs w !! rid) as [r|] eqn:Hr; [|by cbn; rewrite Hr].
    rewrite (step_delete_pending_eq _ _ _ _ Hr). by intros [= <-].
Qed.

Lemma session_set_changes_only_by_witness :
  dom (sessions (default initial
                   (step (OnEvent 0 (SessionStatusEv "ghost" Completed None None None))
                      one_session)))
  = dom (sessions one_session).
Proof.
  apply (session_set_changes_only_by
           (OnEvent 0 (SessionStatusEv "ghost" Completed None None None))
           one_session).
  - reflexivity.
  - vm_compute. reflexivity.
Defined.
